(** * The collector graph of graph-collector (src/gc/gc.cpp)

    A shallow embedding of [gc::graph]: the address-interval index
    ([add_range], [remove_range], [find_range], [find_range_iterator]) and
    the stop-the-world trace of [collect_impl] (snapshot, mark, sweep).

    Addresses are machine addresses, modelled as [N]; the null pointer is 0.
    A [detail::vector] is a [list], indexed with stdpp's lookup; an access
    past the end is undefined behaviour in the source and [None] here. *)

From stdpp Require Import base tactics numbers option list.

Local Open Scope N_scope.

(** ** Data *)

(** [memory_range]: the byte interval of one managed allocation, with the
    members [begin] and [end] that gc.cpp reads and writes ([end] is a
    keyword here, hence [end_]). *)
Record memory_range : Type := MemoryRange { begin : N; end_ : N }.

(** ** The address-interval index *)

(** [std::upper_bound(ranges.begin(), ranges.end(), bp, comp)] with
    [comp p r := p < r.begin]: the position of the first element [r] with
    [bp < r.begin], or the end position when there is none.  This is the
    value the standard prescribes on a sequence partitioned by [comp],
    which a sequence sorted by [begin] is. *)
Fixpoint upper_bound (ranges : list memory_range) (bp : N) : nat :=
  match ranges with
  | [] => 0%nat
  | r :: rest => if bp <? begin r then 0%nat else S (upper_bound rest bp)
  end.

(** [graph::add_range(p, size)]: insert [{bp, bp + size}] before the
    upper bound of [p]. *)
Definition add_range (ranges : list memory_range) (p size : N)
  : list memory_range :=
  let bp := p in
  let it := upper_bound ranges bp in
  take it ranges ++ MemoryRange bp (bp + size) :: drop it ranges.

(** [graph::find_range_iterator(internalPtr)].  An iterator is modelled by
    its position; [ranges.end()] is [length ranges]. *)
Definition find_range_iterator (ranges : list memory_range) (internalPtr : N)
  : nat :=
  let ranges_end := length ranges in
  match head ranges, last ranges with
  | Some front, Some back =>
      if negb (internalPtr =? 0) then
        let bp := internalPtr in
        let allBegin := begin front in
        let allEnd := end_ back in
        if (allBegin <=? bp) && (bp <=? allEnd) then
          match upper_bound ranges bp with
          | O => ranges_end
          | S it =>
              match ranges !! it with
              | Some r =>
                  if (begin r <=? bp) && (bp <=? end_ r) then it
                  else ranges_end
              | None => ranges_end
              end
          end
        else ranges_end
      else ranges_end
  | _, _ => ranges_end
  end.

(** [graph::find_range(internalPtr)]. *)
Definition find_range (ranges : list memory_range) (internalPtr : N)
  : option memory_range :=
  let it := find_range_iterator ranges internalPtr in
  if decide (it = length ranges) then None else ranges !! it.

(** [graph::remove_range(p)].  [None] is the failed
    [assert(it != ranges.end())]. *)
Definition remove_range (ranges : list memory_range) (p : N)
  : option (list memory_range) :=
  let it := find_range_iterator ranges p in
  if decide (it = length ranges) then None else Some (delete it ranges).

(** ** Well-formed indices *)

(** An address lies in the half-open interval of a range. *)
Definition contains (r : memory_range) (a : N) : Prop :=
  begin r <= a /\ a < end_ r.

(** An address lies in the closed interval of a range, the test of
    [find_range_iterator]. *)
Definition contains_incl (r : memory_range) (a : N) : Prop :=
  begin r <= a /\ a <= end_ r.

Definition nonempty (r : memory_range) : Prop := begin r < end_ r.

Definition disjoint (r1 r2 : memory_range) : Prop :=
  end_ r1 <= begin r2 \/ end_ r2 <= begin r1.

(** Invariant I2: strictly increasing [begin]. *)
Definition sorted_by_begin (ranges : list memory_range) : Prop :=
  forall (i j : nat) r1 r2,
    ranges !! i = Some r1 -> ranges !! j = Some r2 -> (i < j)%nat ->
    begin r1 < begin r2.

(** Invariant I1: pairwise disjoint. *)
Definition pairwise_disjoint (ranges : list memory_range) : Prop :=
  forall (i j : nat) r1 r2,
    ranges !! i = Some r1 -> ranges !! j = Some r2 -> i <> j ->
    disjoint r1 r2.

(** The three invariants together, in the form the proofs use: every range
    is non-empty and ends before all later ranges begin. *)
Fixpoint wf_index (ranges : list memory_range) : Prop :=
  match ranges with
  | [] => True
  | r :: rest =>
      nonempty r /\ Forall (fun r' => end_ r <= begin r') rest /\ wf_index rest
  end.

(** ** Pointer slots *)

(** A [std::shared_ptr<void>]: [None] is the null reference, [Some h] a
    strong reference to the managed object [h]. *)
Definition shared_ptr : Type := option N.

(** Modelled from the spec: the header gc/gc.h, which declares
    [graph_ptr], is not part of the sources.  An owning slot holds a strong
    reference ([ptr], the member [collect_impl] moves from) and a cached raw
    address into its referent ([get()]); the slot converts to [true] iff
    its strong reference is non-null.  [gp_addr] is the address [&gp] of
    the slot's own storage. *)
Record graph_ptr : Type := GraphPtr {
  gp_addr : N;
  gp_ptr : shared_ptr;
  gp_get : N
}.

(** Modelled from the spec: [raw_graph_ptr] of gc/gc.h, an observing slot
    holding only a raw address [ptr]; [rgp_addr] is the address [&rgp] of
    the slot's own storage. *)
Record raw_graph_ptr : Type := RawGraphPtr {
  rgp_addr : N;
  rgp_ptr : N
}.

(** ** The graph and the per-trace arrays *)

(** An element of [rngs], built as [{ r.begin, r.end, false, false }] and
    read through [begin], [end], [managed] and [scanned]. *)
Record scan_range : Type := ScanRange {
  sr_begin : N;
  sr_end : N;
  managed : bool;
  scanned : bool
}.

(** An element of [info]: [gp] is the slot's storage address, [range]
    points to an element of [rngs] and is modelled by its position. *)
Record scan_info : Type := ScanInfo {
  gp : N;
  range : nat
}.

(** The state of [gc::graph] between calls.  The members [rngs], [info],
    [scan] and [keep] are empty between calls ([collect_impl] clears them
    before it returns), so they are local to the trace ([trace]). *)
Record graph : Type := Graph {
  ranges : list memory_range;
  pointers : list graph_ptr;
  rawPointers : list raw_graph_ptr;
  collecting : bool
}.

Record trace : Type := Trace {
  rngs : list scan_range;
  info : list scan_info;
  scan : list N;
  keep : list N
}.

Definition set_managed (m : bool) (r : scan_range) : scan_range :=
  ScanRange (sr_begin r) (sr_end r) m (scanned r).

Definition set_scanned (s : bool) (r : scan_range) : scan_range :=
  ScanRange (sr_begin r) (sr_end r) (managed r) s.

(** The cast [(uint32_t)info.size()]. *)
Definition uint32 (n : N) : N := n mod 2 ^ 32.

(** A loop [for (auto& x : l) body] over a state that an out-of-bounds
    access aborts. *)
Fixpoint for_each {A S : Type} (body : S -> A -> option S) (l : list A) (s : S)
  : option S :=
  match l with
  | [] => Some s
  | x :: rest => s' ← body s x; for_each body rest s'
  end.

(** ** Snapshot (gc.cpp lines 96-153) *)

(** The part the two snapshot loops share: take [&rngs[idx_r]], write its
    [managed] flag, append the scan record and push its index to [keep]
    when the slot is a root ([!find_range(si.gp)]) and to [scan]
    otherwise. *)
Definition record_slot (ranges : list memory_range) (t : trace)
    (slot : N) (idx_r : nat) (m : bool) : option trace :=
  r ← rngs t !! idx_r;
  let rngs' := <[idx_r := set_managed m r]> (rngs t) in
  let idx := uint32 (N.of_nat (length (info t))) in
  let info' := info t ++ [ScanInfo slot idx_r] in
  let isRoot := bool_decide (find_range ranges slot = None) in
  if isRoot
  then Some (Trace rngs' info' (scan t) (keep t ++ [idx]))
  else Some (Trace rngs' info' (scan t ++ [idx]) (keep t)).

(** Body of [for (auto& gp : pointers)]. *)
Definition snap_owning (ranges : list memory_range) (t : trace)
    (g : graph_ptr) : option trace :=
  match gp_ptr g with
  | Some _ =>
      let idx_r := find_range_iterator ranges (gp_get g) in
      record_slot ranges t (gp_addr g) idx_r true
  | None => Some t
  end.

(** Body of [for (auto& rgp : rawPointers)]. *)
Definition snap_raw (ranges : list memory_range) (t : trace)
    (rgp : raw_graph_ptr) : option trace :=
  let it_r := find_range_iterator ranges (rgp_ptr rgp) in
  if decide (it_r = length ranges) then Some t
  else record_slot ranges t (rgp_addr rgp) it_r false.

Definition snapshot (g : graph) : option trace :=
  let rngs0 := (fun r => ScanRange (begin r) (end_ r) false false) <$> ranges g in
  t ← for_each (snap_owning (ranges g)) (pointers g) (Trace rngs0 [] [] []);
  for_each (snap_raw (ranges g)) (rawPointers g) t.

(** ** Mark (gc.cpp lines 158-184) *)

(** The inner loop [for (auto it = scan.begin(); it != scan.end(); )] over
    the parent range [[b, e)].  Every iteration either advances [it] or
    pops [scan], so [length scan - it] iterations exhaust it; [fuel] bounds
    the iterations and [None] is also an out-of-bounds [info[idx]]. *)
Fixpoint walk (fuel : nat) (info : list scan_info) (b e : N) (it : nat)
    (scan keep : list N) : option (list N * list N) :=
  if decide (it = length scan) then Some (scan, keep)
  else
    match fuel with
    | O => None
    | S fuel' =>
        idx ← scan !! it;
        si ← info !! N.to_nat idx;
        let bp := gp si in
        if (b <=? bp) && (bp <? e) then
          back ← last scan;
          walk fuel' info b e it
               (removelast (<[it := back]> scan)) (keep ++ [idx])
        else walk fuel' info b e (S it) scan keep
    end.

(** The outer loop [for (size_t i = 0; i != keep.size(); ++i)]. *)
Fixpoint mark (fuel : nat) (i : nat) (t : trace) : option trace :=
  if decide (i = length (keep t)) then Some t
  else
    match fuel with
    | O => None
    | S fuel' =>
        k ← keep t !! i;
        parent ← info t !! N.to_nat k;
        pr ← rngs t !! range parent;
        if scanned pr then mark fuel' (S i) t
        else
          '(scan', keep') ←
            walk (length (scan t)) (info t) (sr_begin pr) (sr_end pr) 0
                 (scan t) (keep t);
          mark fuel' (S i)
               (Trace (<[range parent := set_scanned true pr]> (rngs t))
                      (info t) scan' keep')
    end.

(** ** Sweep (gc.cpp lines 186-195) *)

(** [std::move(mptr->ptr)] leaves the slot with a null strong reference. *)
Definition moved_from (g : graph_ptr) : graph_ptr :=
  GraphPtr (gp_addr g) None (gp_get g).

(** [for (auto& idx : scan)].  The cast
    [static_cast<graph_ptr<void>*>(si.gp)] reads the owning slot stored at
    address [si.gp]; when no owning slot is stored there the read is
    undefined, [None]. *)
Fixpoint sweep (t : trace) (todo : list N) (pointers : list graph_ptr)
    (unreachable : list shared_ptr)
  : option (list graph_ptr * list shared_ptr) :=
  match todo with
  | [] => Some (pointers, unreachable)
  | idx :: rest =>
      si ← info t !! N.to_nat idx;
      r ← rngs t !! range si;
      if managed r then
        '(k, mptr) ← list_find (fun s => gp_addr s = gp si) pointers;
        sweep t rest (<[k := moved_from mptr]> pointers)
              (unreachable ++ [gp_ptr mptr])
      else sweep t rest pointers unreachable
  end.

(** ** collect (gc.cpp lines 81-211) *)

(** The garbage batch: the strong references moved out of the slots. *)
Definition garbage : Type := list shared_ptr.

(** [graph::collect_impl()].  [collecting.exchange(true)] returns the old
    flag and leaves the flag set.  The mark loop runs at most
    [keep.size() + scan.size()] iterations, which is the fuel it gets. *)
Definition collect_impl (g : graph) : option (graph * garbage) :=
  if collecting g then
    Some (Graph (ranges g) (pointers g) (rawPointers g) true, [])
  else
    t ← snapshot g;
    t' ← mark (length (keep t) + length (scan t)) 0 t;
    '(pointers', unreachable) ← sweep t' (scan t') (pointers g) [];
    Some (Graph (ranges g) pointers' (rawPointers g) false, unreachable).

Definition collect : graph -> option (graph * garbage) := collect_impl.


(** ** Histories of the index *)

(** The indices built from the empty index of [graph::graph()] by
    [add_range] and [remove_range] calls.  Every added range is a range of
    the data model ([size > 0]) that is disjoint from the ranges present;
    a [remove_range] whose assertion fails aborts the program and reaches
    no state. *)
Inductive index_state : list memory_range -> Prop :=
| index_empty : index_state []
| index_add rs p size :
    index_state rs -> 0 < size ->
    Forall (disjoint (MemoryRange p (p + size))) rs ->
    index_state (add_range rs p size)
| index_remove rs p rs' :
    index_state rs -> remove_range rs p = Some rs' -> index_state rs'.

(** ** Reachability between scan records *)

(** The bounds of an element of [rngs]. *)
Definition range_of (sr : scan_range) : memory_range :=
  MemoryRange (sr_begin sr) (sr_end sr).

(** The records the mark phase is meant to reach from the roots [keep0]:
    record [j] is reached from record [i] when the slot of [j] is stored
    inside the range that [i] points to. *)
Inductive reach (info : list scan_info) (rs : list memory_range)
    (keep0 all : list N) : N -> Prop :=
| reach_root j : j ∈ keep0 -> reach info rs keep0 all j
| reach_inside i j si sj r :
    reach info rs keep0 all i -> j ∈ all ->
    info !! N.to_nat i = Some si -> info !! N.to_nat j = Some sj ->
    rs !! range si = Some r -> contains r (gp sj) ->
    reach info rs keep0 all j.

(** Every index in [keep] and [scan] is an index of [info], and every
    record points into [rngs]. *)
Definition trace_valid (t : trace) : Prop :=
  (forall j, j ∈ keep t ++ scan t -> is_Some (info t !! N.to_nat j)) /\
  (forall si, si ∈ info t -> (range si < length (rngs t))%nat).

(** From position [i] of [keep] on, no record of [scan] is stored inside
    a range that is the target of a kept record and not yet scanned. *)
Definition quiescent (i : nat) (t : trace) : Prop :=
  forall (p : nat) x sx sr j sj,
    (i <= p)%nat -> keep t !! p = Some x ->
    info t !! N.to_nat x = Some sx -> rngs t !! range sx = Some sr ->
    scanned sr = false ->
    j ∈ scan t -> info t !! N.to_nat j = Some sj ->
    ~ contains (range_of sr) (gp sj).

(** ** Graph-level notions *)

(** The index is well-formed and the slot count fits the 32-bit record
    indices of [keep] and [scan]. *)
Definition wf_graph (g : graph) : Prop :=
  wf_index (ranges g) /\
  N.of_nat (length (pointers g) + length (rawPointers g)) < 2 ^ 32.

(** The owning slot [s] holds a strong reference and [collect_impl]
    attributes its referent to the range at position [k]. *)
Definition owner_of (g : graph) (s : graph_ptr) (k : nat) : Prop :=
  s ∈ pointers g /\ is_Some (gp_ptr s) /\
  find_range_iterator (ranges g) (gp_get s) = k.

(** The observing slot [o] points into the range at position [k]. *)
Definition observer_of (g : graph) (o : raw_graph_ptr) (k : nat) : Prop :=
  o ∈ rawPointers g /\ find_range_iterator (ranges g) (rgp_ptr o) = k /\
  (k < length (ranges g))%nat.

(** The scan records the snapshot creates: one for every non-null owning
    slot and one for every observing slot that points into a range. *)
Definition has_record (g : graph) (si : scan_info) : Prop :=
  (exists s, owner_of g s (range si) /\ gp si = gp_addr s) \/
  (exists o, observer_of g o (range si) /\ gp si = rgp_addr o).

(** The storage addresses the trace keeps: those [find_range] finds in no
    range (roots), and those inside the half-open interval of a range that
    a recorded slot at a kept address points to. *)
Inductive kept (g : graph) : N -> Prop :=
| kept_root a : find_range (ranges g) a = None -> kept g a
| kept_inside a si r :
    kept g (gp si) -> has_record g si ->
    ranges g !! range si = Some r -> contains r a -> kept g a.

(** ** Invariants of the trace *)

(** The slot of record [j] is stored inside the parent range [[b, e)]. *)
Definition hit (info : list scan_info) (b e : N) (j : N) : Prop :=
  exists sj, info !! N.to_nat j = Some sj /\ b <= gp sj /\ gp sj < e.

(** What holds of the arrays while the snapshot is built over the index
    [rs]. *)
Record snap_inv (rs : list memory_range) (t : trace) : Prop := SnapInv {
  snap_bounds : range_of <$> rngs t = rs;
  snap_unscanned : Forall (fun sr => scanned sr = false) (rngs t);
  snap_perm : keep t ++ scan t ≡ₚ N.of_nat <$> seq 0 (length (info t));
  snap_keep : forall j si,
    j ∈ keep t -> info t !! N.to_nat j = Some si ->
    find_range rs (gp si) = None;
  snap_scan : forall j si,
    j ∈ scan t -> info t !! N.to_nat j = Some si ->
    find_range rs (gp si) <> None;
  snap_range : forall si, si ∈ info t -> (range si < length rs)%nat
}.

(** The invariant of the mark loop at work index [i], for a trace that
    started from [info0], the bounds [rs], the [managed] flags [marks0] and
    the lists [keep0] and [scan0]. *)
Record mark_inv (info0 : list scan_info) (rs : list memory_range)
    (marks0 : list bool) (keep0 scan0 : list N) (i : nat) (t : trace)
  : Prop := MarkInv {
  inv_info : info t = info0;
  inv_bounds : range_of <$> rngs t = rs;
  inv_managed : managed <$> rngs t = marks0;
  inv_perm : keep t ++ scan t ≡ₚ keep0 ++ scan0;
  inv_keep0 : forall x, x ∈ keep0 -> x ∈ keep t;
  inv_reach : forall x,
    x ∈ keep t -> reach info0 rs keep0 (keep0 ++ scan0) x;
  inv_done : forall (p : nat) x sx,
    (p < i)%nat -> keep t !! p = Some x -> info0 !! N.to_nat x = Some sx ->
    exists sr, rngs t !! range sx = Some sr /\ scanned sr = true;
  inv_scanned : forall (k : nat) sr j sj,
    rngs t !! k = Some sr -> scanned sr = true ->
    j ∈ scan t -> info0 !! N.to_nat j = Some sj ->
    ~ contains (range_of sr) (gp sj);
  inv_i : (i <= length (keep t))%nat
}.

(** The first snapshot loop after the owning slots [done]: the records are
    those of the non-null slots, and a range is [managed] iff one of them
    points into it. *)
Definition own_inv (rs : list memory_range) (done : list graph_ptr)
    (t : trace) : Prop :=
  snap_inv rs t /\ (length (info t) <= length done)%nat /\
  (forall si, si ∈ info t <->
     exists s, s ∈ done /\ is_Some (gp_ptr s) /\
       si = ScanInfo (gp_addr s) (find_range_iterator rs (gp_get s))) /\
  (forall (k : nat) sr, rngs t !! k = Some sr ->
     (managed sr = true <->
      exists s, s ∈ done /\ is_Some (gp_ptr s) /\
        find_range_iterator rs (gp_get s) = k)).

(** The second snapshot loop after the observing slots [done], the first
    loop having run over [own]: an observing slot that points into a range
    adds a record and clears the [managed] flag of that range. *)
Definition raw_inv (rs : list memory_range) (own : list graph_ptr)
    (done : list raw_graph_ptr) (t : trace) : Prop :=
  snap_inv rs t /\ (length (info t) <= length own + length done)%nat /\
  (forall si, si ∈ info t <->
     (exists s, s ∈ own /\ is_Some (gp_ptr s) /\
        si = ScanInfo (gp_addr s) (find_range_iterator rs (gp_get s))) \/
     (exists o, o ∈ done /\
        (find_range_iterator rs (rgp_ptr o) < length rs)%nat /\
        si = ScanInfo (rgp_addr o) (find_range_iterator rs (rgp_ptr o)))) /\
  (forall (k : nat) sr, rngs t !! k = Some sr ->
     (managed sr = true <->
      (exists s, s ∈ own /\ is_Some (gp_ptr s) /\
         find_range_iterator rs (gp_get s) = k) /\
      ~ exists o, o ∈ done /\ find_range_iterator rs (rgp_ptr o) = k)).

(** ** The notions of the claims *)

(** Managed allocations are never at the null address. *)
Definition nonnull_index (rs : list memory_range) : Prop :=
  Forall (fun r => begin r <> 0) rs.

(** The root test of the snapshot, [!find_range(si.gp)], on a storage
    address. *)
Definition is_root (g : graph) (a : N) : Prop :=
  find_range (ranges g) a = None.

(** The reading of "outside every range" with the half-open interval that
    defines a range. *)
Definition outside_ranges (g : graph) (a : N) : Prop :=
  forall r, r ∈ ranges g -> ~ contains r a.

(** The non-null owning slots on a path of address containment from a
    root owning slot: a slot whose storage address satisfies [root], or a
    slot stored inside the range that a slot on such a path refers to. *)
Inductive live_slot (root : N -> Prop) (g : graph) : graph_ptr -> Prop :=
| live_root s :
    s ∈ pointers g -> is_Some (gp_ptr s) -> root (gp_addr s) ->
    live_slot root g s
| live_inside s s' r :
    live_slot root g s' ->
    ranges g !! find_range_iterator (ranges g) (gp_get s') = Some r ->
    s ∈ pointers g -> is_Some (gp_ptr s) -> contains r (gp_addr s) ->
    live_slot root g s.

(** The range at position [k] is transitively reachable from a root owning
    slot. *)
Definition reachable_range (root : N -> Prop) (g : graph) (k : nat) : Prop :=
  exists s, live_slot root g s /\
            find_range_iterator (ranges g) (gp_get s) = k.

(** A recorded slot at a kept address points into the range at position
    [k]: the allocation has an external root. *)
Definition range_kept (g : graph) (k : nat) : Prop :=
  exists si, has_record g si /\ range si = k /\ kept g (gp si).

(** The slot is stored inside an allocation with no external root. *)
Definition stored_unrooted (g : graph) (s : graph_ptr) : Prop :=
  exists (k : nat) r,
    ranges g !! k = Some r /\ contains r (gp_addr s) /\ ~ range_kept g k.

(** ** The claims as the specification states them *)

(** P3: no strong reference to an object whose range is reachable from a
    root owning slot is in the batch. *)
Definition no_false_free (g : graph) : Prop :=
  forall g' gb k s h,
    collect g = Some (g', gb) ->
    reachable_range (outside_ranges g) g k ->
    owner_of g s k -> gp_ptr s = Some h -> Some h ∉ gb.


(** The second half of the contract of [remove_range]: a pointer that is
    not the [begin] of a present range fails the assertion. *)
Definition remove_absent_asserts (rs : list memory_range) (p : N) : Prop :=
  (forall r, r ∈ rs -> begin r <> p) -> remove_range rs p = None.

(** P6: an object that only observing slots refer to is in the batch, so
    the batch holds a strong reference. *)
Definition observed_only_collected (g : graph) : Prop :=
  forall g' gb k,
    collect g = Some (g', gb) ->
    (exists o, observer_of g o k) -> (forall s, ~ owner_of g s k) ->
    exists h, Some h ∈ gb.

(** ** Example graphs *)

(** Three objects A, B and C. *)
Definition heap3 : list memory_range :=
  [MemoryRange 100 120; MemoryRange 200 220; MemoryRange 300 320].

(** A slot on the stack owns A; B and C own each other and B owns A too;
    nothing owns B or C from outside. *)
Definition shared_graph : graph :=
  Graph heap3
        [GraphPtr 1000 (Some 1) 100; GraphPtr 204 (Some 3) 300;
         GraphPtr 304 (Some 2) 200; GraphPtr 208 (Some 1) 100]
        [] false.

(** A and B own each other and B also observes A; there is no root. *)
Definition observed_cycle : graph :=
  Graph heap3
        [GraphPtr 104 (Some 2) 200; GraphPtr 204 (Some 1) 100]
        [RawGraphPtr 208 100] false.

(** An observing slot on the stack points to A and no owning slot exists. *)
Definition observer_only : graph :=
  Graph heap3 [] [RawGraphPtr 1000 100] false.

(** A non-null owning slot whose cached address is in no range. *)
Definition stray_graph : graph :=
  Graph heap3 [GraphPtr 1000 (Some 1) 5000] [] false.

(** An owning slot stored exactly at the end of A owns B, and a slot on
    the stack owns A. *)
Definition boundary_graph : graph :=
  Graph heap3
        [GraphPtr 120 (Some 2) 200; GraphPtr 2000 (Some 1) 100]
        [] false.

(** A slot on the stack owns A, an owning slot stored at the end of A owns
    B, and an observing slot stored at the end of B points to C. *)
Definition boundary_observed : graph :=
  Graph heap3
        [GraphPtr 2000 (Some 1) 100; GraphPtr 120 (Some 2) 200]
        [RawGraphPtr 220 300] false.

(** A slot on the stack owns A, A owns B and B owns A. *)
Definition rooted_cycle : graph :=
  Graph heap3
        [GraphPtr 1000 (Some 1) 100; GraphPtr 104 (Some 2) 200;
         GraphPtr 204 (Some 1) 100]
        [] false.

(** A and B own each other and there is no root. *)
Definition cycle_graph : graph :=
  Graph heap3
        [GraphPtr 104 (Some 2) 200; GraphPtr 204 (Some 1) 100]
        [] false.

(** The arrays after the snapshot of [rooted_cycle]. *)
Definition rooted_cycle_trace : trace :=
  Trace [ScanRange 100 120 true false; ScanRange 200 220 true false;
         ScanRange 300 320 false false]
        [ScanInfo 1000 0; ScanInfo 104 1; ScanInfo 204 0]
        [1; 2] [0].

(** The arrays after the snapshot of [boundary_observed], and after its
    mark phase. *)
Definition boundary_trace : trace :=
  Trace [ScanRange 100 120 true false; ScanRange 200 220 true false;
         ScanRange 300 320 false false]
        [ScanInfo 2000 0; ScanInfo 120 1; ScanInfo 220 2]
        [1; 2] [0].

Definition boundary_marked : trace :=
  Trace [ScanRange 100 120 true true; ScanRange 200 220 true false;
         ScanRange 300 320 false false]
        [ScanInfo 2000 0; ScanInfo 120 1; ScanInfo 220 2]
        [1; 2] [0].

(** The slot stored at the end of a range, as the claim about it is
    stated: every registered slot whose storage address is the end of a
    range and lies in the half-open interval of no range has, after the
    snapshot, a scan record whose index is in [scan]. *)
Definition boundary_interior (g : graph) : Prop :=
  forall t a R,
    snapshot g = Some t ->
    (exists s, s ∈ pointers g /\ gp_addr s = a) \/
    (exists o, o ∈ rawPointers g /\ rgp_addr o = a) ->
    R ∈ ranges g -> a = end_ R -> outside_ranges g a ->
    exists (n : nat) si,
      info t !! n = Some si /\ gp si = a /\ N.of_nat n ∈ scan t.

(** A null owning slot stored at the end of A and an observing slot stored
    at the end of B that points into no range. *)
Definition unrecorded_boundary : graph :=
  Graph heap3 [GraphPtr 120 None 0] [RawGraphPtr 220 5000] false.

(** ** The rest of gc.cpp: construction, registries, statistics *)

(** [graph::graph()]: every member starts empty and no collection is in
    progress ([reserve] only sets capacities). *)
Definition new_graph : graph := Graph [] [] [] false.

(** [graph::add_range] and [graph::remove_range] on the member [ranges]. *)
Definition graph_add_range (g : graph) (p size : N) : graph :=
  Graph (add_range (ranges g) p size) (pointers g) (rawPointers g)
        (collecting g).

Definition graph_remove_range (g : graph) (p : N) : option graph :=
  rs ← remove_range (ranges g) p;
  Some (Graph rs (pointers g) (rawPointers g) (collecting g)).

(** [graph::attach(graph_ptr<void>* gp)]: [pointers.push_back(gp)].  The
    registry is iterated as the slots themselves, so the slot is appended
    with its storage address and its present contents. *)
Definition attach (g : graph) (gp : graph_ptr) : graph :=
  Graph (ranges g) (pointers g ++ [gp]) (rawPointers g) (collecting g).

(** [graph::detach(graph_ptr<void>* gp)]: [pointers.remove(gp)].  The
    argument is the slot's address; as with [std::list::remove], the
    entries for that address leave the list and the others keep their
    order. *)
Definition detach (g : graph) (gp : N) : graph :=
  Graph (ranges g) (filter (fun s => gp_addr s <> gp) (pointers g))
        (rawPointers g) (collecting g).

(** [graph::attach(raw_graph_ptr<void>* gp)]:
    [rawPointers.push_back(gp)]. *)
Definition attach_raw (g : graph) (gp : raw_graph_ptr) : graph :=
  Graph (ranges g) (pointers g) (rawPointers g ++ [gp]) (collecting g).

(** [graph::detach(raw_graph_ptr<void>* gp)]: [rawPointers.remove(gp)]. *)
Definition detach_raw (g : graph) (gp : N) : graph :=
  Graph (ranges g) (pointers g)
        (filter (fun o => rgp_addr o <> gp) (rawPointers g)) (collecting g).

(** The conversion [(int)n] of a [size_t] to a 32-bit [int]. *)
Definition to_int (n : Z) : Z := ((n + 2 ^ 31) mod 2 ^ 32 - 2 ^ 31)%Z.

(** [graph::allocated_objects()]: [(int)that->ranges.size()]. *)
Definition allocated_objects (g : graph) : Z :=
  to_int (Z.of_nat (length (ranges g))).

(** Arithmetic in [size_t] (64 bits). *)
Definition size_t (n : Z) : Z := (n mod 2 ^ 64)%Z.

(** [range.end - range.begin]. *)
Definition range_bytes (r : memory_range) : Z :=
  (Z.of_N (end_ r) - Z.of_N (begin r))%Z.

(** [graph::allocated_bytes()]: [total += (range.end - range.begin)] over
    [that->ranges], from [total = 0]. *)
Definition allocated_bytes (g : graph) : Z :=
  fold_left (fun total r => size_t (total + range_bytes r)) (ranges g) 0%Z.

(** The sum of the sizes of the ranges, without wrap-around. *)
Definition total_bytes (rs : list memory_range) : Z :=
  foldr (fun r acc => (range_bytes r + acc)%Z) 0%Z rs.

(** ** What collect sweeps *)

(** The owning slot [s] is collectable: it holds a strong reference, its
    storage is not kept by the trace, and no observing slot points into the
    range of its referent. *)
Definition collectable (g : graph) (s : graph_ptr) : Prop :=
  is_Some (gp_ptr s) /\ ~ kept g (gp_addr s) /\
  ~ exists o, observer_of g o (find_range_iterator (ranges g) (gp_get s)).

(** The storage address of the slot of record [idx] when the sweep moves
    its strong reference out, i.e. when the range of the record is
    [managed]. *)
Definition swept_addr (t : trace) (idx : N) : option N :=
  si ← info t !! N.to_nat idx;
  r ← rngs t !! range si;
  if managed r then Some (gp si) else None.

(** The scan record of an owning slot, if it gets one. *)
Definition owning_record (rs : list memory_range) (s : graph_ptr)
  : option scan_info :=
  match gp_ptr s with
  | Some _ => Some (ScanInfo (gp_addr s) (find_range_iterator rs (gp_get s)))
  | None => None
  end.

(** The scan record of an observing slot, if it gets one. *)
Definition observing_record (rs : list memory_range) (o : raw_graph_ptr)
  : option scan_info :=
  if decide (find_range_iterator rs (rgp_ptr o) = length rs) then None
  else Some (ScanInfo (rgp_addr o) (find_range_iterator rs (rgp_ptr o))).

(** An owning slot after a sweep of the storage addresses [addrs]. *)
Definition swept_slot (addrs : list N) (s : graph_ptr) : graph_ptr :=
  if decide (gp_addr s ∈ addrs) then moved_from s else s.

(** * Properties of the address-interval index *)

Section index_lemmas.
Implicit Types (rs : list memory_range) (r : memory_range) (a p : N).
Implicit Types (i j k it : nat).

Lemma upper_bound_le rs a : (upper_bound rs a <= length rs)%nat.
Proof. induction rs as [|r rs IH]; simpl; [lia|]. destruct (a <? begin r); lia. Qed.

Lemma upper_bound_before rs a i r :
  (i < upper_bound rs a)%nat -> rs !! i = Some r -> begin r <= a.
Proof.
  revert i. induction rs as [|r0 rs IH]; intros i; simpl; [lia|].
  destruct (N.ltb_spec a (begin r0)); [lia|].
  destruct i as [|i]; simpl; intros Hi Hr.
  - by simplify_eq.
  - apply (IH i); [lia|done].
Qed.

Lemma upper_bound_at rs a r :
  rs !! upper_bound rs a = Some r -> a < begin r.
Proof.
  induction rs as [|r0 rs IH]; simpl; [done|].
  destruct (N.ltb_spec a (begin r0)); simpl; [by intros [= ->]|done].
Qed.

Lemma wf_index_nonempty rs i r :
  wf_index rs -> rs !! i = Some r -> nonempty r.
Proof.
  revert i. induction rs as [|r0 rs IH]; intros [|i]; simpl; try done.
  - by intros (? & _ & _) [= ->].
  - intros (_ & _ & ?). by apply IH.
Qed.

Lemma wf_index_lookup rs i j r1 r2 :
  wf_index rs -> rs !! i = Some r1 -> rs !! j = Some r2 -> (i < j)%nat ->
  end_ r1 <= begin r2.
Proof.
  revert i j. induction rs as [|r0 rs IH]; intros i j; simpl; [done|].
  intros (_ & Hall & Hwf) Hi Hj Hlt.
  destruct j as [|j]; [lia|]. simpl in Hj.
  destruct i as [|i]; simpl in Hi.
  - simplify_eq. rewrite Forall_forall in Hall.
    apply Hall. by eapply list_elem_of_lookup_2.
  - apply (IH i j); [done..|lia].
Qed.

Lemma wf_index_sorted rs : wf_index rs -> sorted_by_begin rs.
Proof.
  intros Hwf i j r1 r2 Hi Hj Hlt.
  pose proof (wf_index_lookup _ _ _ _ _ Hwf Hi Hj Hlt).
  pose proof (wf_index_nonempty _ _ _ Hwf Hi). unfold nonempty in *. lia.
Qed.

Lemma wf_index_disjoint rs : wf_index rs -> pairwise_disjoint rs.
Proof.
  intros Hwf i j r1 r2 Hi Hj Hne. unfold disjoint.
  destruct (decide (i < j)%nat).
  - left. by eapply wf_index_lookup.
  - right. eapply wf_index_lookup; [done|exact Hj|exact Hi|lia].
Qed.

Lemma upper_bound_after rs a i r :
  wf_index rs -> (upper_bound rs a <= i)%nat -> rs !! i = Some r ->
  a < begin r.
Proof.
  intros Hwf Hle Hi.
  destruct (decide (i = upper_bound rs a)) as [->|Hne].
  - by eapply upper_bound_at.
  - destruct (lookup_lt_is_Some_2 rs (upper_bound rs a)) as [r0 Hr0].
    { apply lookup_lt_Some in Hi. lia. }
    pose proof (upper_bound_at _ _ _ Hr0).
    pose proof (wf_index_sorted _ Hwf _ _ _ _ Hr0 Hi). lia.
Qed.

(** The two outcomes of the search. *)
Lemma find_range_iterator_cases rs a :
  find_range_iterator rs a = length rs \/
  exists it r, find_range_iterator rs a = it /\ upper_bound rs a = S it /\
               rs !! it = Some r /\ contains_incl r a /\ a <> 0.
Proof.
  unfold find_range_iterator, contains_incl.
  destruct (head rs) as [front|]; [|by left].
  destruct (last rs) as [back|]; [|by left].
  destruct (N.eqb_spec a 0); simpl; [by left|].
  destruct (_ && _); [|by left].
  destruct (upper_bound rs a) as [|it] eqn:Hub; [by left|].
  destruct (rs !! it) as [r|] eqn:Hr; [|by left].
  destruct (N.leb_spec (begin r) a), (N.leb_spec a (end_ r)); simpl;
    try by left.
  right. by exists it, r.
Qed.

Lemma find_range_iterator_le rs a :
  (find_range_iterator rs a <= length rs)%nat.
Proof.
  destruct (find_range_iterator_cases rs a) as [->|(it & r & -> & _ & Hr & _)];
    [done|]. apply lookup_lt_Some in Hr. lia.
Qed.

Lemma wf_index_front rs front i r :
  wf_index rs -> head rs = Some front -> rs !! i = Some r ->
  begin front <= begin r.
Proof.
  intros Hwf Hf Hi. rewrite head_lookup in Hf.
  destruct i as [|i]; [by simplify_eq|].
  pose proof (wf_index_sorted _ Hwf 0%nat (S i) _ _ Hf Hi). lia.
Qed.

Lemma wf_index_back rs back i r :
  wf_index rs -> last rs = Some back -> rs !! i = Some r ->
  end_ r <= end_ back.
Proof.
  intros Hwf Hb Hi. rewrite last_lookup in Hb.
  destruct (decide (i = pred (length rs))) as [->|Hne]; [by simplify_eq|].
  pose proof (lookup_lt_Some _ _ _ Hi).
  pose proof (wf_index_lookup _ i (pred (length rs)) _ _ Hwf Hi Hb).
  pose proof (wf_index_nonempty _ _ _ Hwf Hb). unfold nonempty in *. lia.
Qed.

(** The search succeeds at the element before the upper bound when the
    address is at most its [end]. *)
Lemma find_range_iterator_hit rs a it r :
  wf_index rs -> a <> 0 -> upper_bound rs a = S it -> rs !! it = Some r ->
  a <= end_ r -> find_range_iterator rs a = it.
Proof.
  intros Hwf Ha Hub Hr Hle.
  assert (begin r <= a) by (eapply upper_bound_before; [|done]; lia).
  unfold find_range_iterator.
  destruct (head rs) as [front|] eqn:Hf;
    [|by destruct rs; simplify_eq].
  destruct (last rs) as [back|] eqn:Hb;
    [|by apply last_None in Hb; subst].
  pose proof (wf_index_front _ _ _ _ Hwf Hf Hr).
  pose proof (wf_index_back _ _ _ _ Hwf Hb Hr).
  destruct (N.eqb_spec a 0); [done|]. simpl.
  destruct (N.leb_spec (begin front) a); [|lia].
  destruct (N.leb_spec a (end_ back)); [|lia]. simpl.
  rewrite Hub, Hr.
  destruct (N.leb_spec (begin r) a); [|lia].
  destruct (N.leb_spec a (end_ r)); [done|lia].
Qed.

(** An address in the closed interval of a range is attributed to that
    range or to the one that begins at this address. *)
Lemma find_range_iterator_closed rs a k r :
  wf_index rs -> a <> 0 -> rs !! k = Some r -> contains_incl r a ->
  find_range_iterator rs a = k \/
  exists it r', find_range_iterator rs a = it /\ rs !! it = Some r' /\
                (k < it)%nat /\ begin r' = a.
Proof.
  intros Hwf Ha Hk [Hb He].
  destruct (upper_bound rs a) as [|it] eqn:Hub.
  { pose proof (upper_bound_after rs a k r Hwf ltac:(lia) Hk). lia. }
  assert (k <= it)%nat.
  { destruct (decide (k <= it)%nat); [done|].
    pose proof (upper_bound_after rs a k r Hwf ltac:(lia) Hk). lia. }
  destruct (lookup_lt_is_Some_2 rs it) as [r' Hr'].
  { pose proof (upper_bound_le rs a). lia. }
  destruct (decide (k = it)) as [->|Hne].
  - left. simplify_eq. by eapply find_range_iterator_hit.
  - right. exists it, r'.
    assert (begin r' <= a) by (eapply upper_bound_before; [|done]; lia).
    pose proof (wf_index_lookup _ k it _ _ Hwf Hk Hr').
    pose proof (wf_index_nonempty _ _ _ Hwf Hr'). unfold nonempty in *.
    split_and!; [|done|lia|lia].
    eapply find_range_iterator_hit; [done..|lia].
Qed.

Lemma find_range_iterator_found rs a k r :
  wf_index rs -> a <> 0 -> rs !! k = Some r -> contains_incl r a ->
  (find_range_iterator rs a < length rs)%nat.
Proof.
  intros Hwf Ha Hk Hin.
  destruct (find_range_iterator_closed _ _ _ _ Hwf Ha Hk Hin)
    as [->|(it & r' & -> & Hr' & _)]; by eapply lookup_lt_Some.
Qed.

Lemma find_range_Some rs a r :
  find_range rs a = Some r <->
  exists it, find_range_iterator rs a = it /\ (it < length rs)%nat /\
             rs !! it = Some r.
Proof.
  unfold find_range. case_decide as Hit.
  - split; [done|]. intros (it & ? & ? & _). lia.
  - split.
    + intros Hr. eexists. split_and!; [done| |done].
      by eapply lookup_lt_Some.
    + by intros (it & <- & _ & ?).
Qed.

Lemma find_range_None rs a :
  find_range rs a = None <-> find_range_iterator rs a = length rs.
Proof.
  unfold find_range. case_decide as Hit; [done|].
  split; [|done]. intros Hnone%lookup_ge_None.
  pose proof (find_range_iterator_le rs a). lia.
Qed.

(** [find_range] finds no range exactly for the null address and for
    addresses outside every closed interval. *)
Lemma find_range_None_iff rs a :
  wf_index rs ->
  find_range rs a = None <->
  a = 0 \/ forall r, r ∈ rs -> ~ contains_incl r a.
Proof.
  intros Hwf. rewrite find_range_None. split.
  - intros Hend. destruct (decide (a = 0)) as [|Ha]; [by left|right].
    intros r [k Hk]%list_elem_of_lookup Hin.
    pose proof (find_range_iterator_found _ _ _ _ Hwf Ha Hk Hin). lia.
  - intros Hout.
    destruct (find_range_iterator_cases rs a)
      as [|(it & r & _ & _ & Hr & Hin & Ha)]; [done|].
    destruct Hout as [|Hout]; [done|].
    destruct (Hout r); [by eapply list_elem_of_lookup_2|done].
Qed.

(** ** [add_range] and [remove_range] keep the index well-formed *)

Lemma add_range_cons r rs p size :
  add_range (r :: rs) p size =
  if p <? begin r then MemoryRange p (p + size) :: r :: rs
  else r :: add_range rs p size.
Proof. unfold add_range. simpl. by destruct (p <? begin r). Qed.

Lemma add_range_elem_of rs p size r :
  r ∈ add_range rs p size <-> r = MemoryRange p (p + size) \/ r ∈ rs.
Proof.
  unfold add_range. cbv zeta. rewrite elem_of_app, elem_of_cons.
  assert (r ∈ rs <->
          r ∈ take (upper_bound rs p) rs \/ r ∈ drop (upper_bound rs p) rs)
    by (by rewrite <- elem_of_app, take_drop).
  tauto.
Qed.

Lemma add_range_wf rs p size :
  wf_index rs -> 0 < size ->
  Forall (disjoint (MemoryRange p (p + size))) rs ->
  wf_index (add_range rs p size).
Proof.
  intros Hwf Hsize. induction rs as [|r rs IH]; intros Hdis.
  - cbn. unfold nonempty. simpl. split_and!; [lia|constructor|done].
  - rewrite add_range_cons. destruct Hwf as (Hne & Hall & Hwf).
    apply Forall_cons in Hdis as [Hd Hdis]. unfold disjoint in Hd.
    simpl in Hd. unfold nonempty in Hne.
    destruct (N.ltb_spec p (begin r)).
    + simpl. unfold nonempty at 1. simpl. split_and!; try done; [lia|].
      constructor; simpl; [lia|].
      eapply Forall_impl; [exact Hall|]. simpl. intros; lia.
    + simpl. split_and!; [done| |by apply IH].
      apply Forall_forall. intros r' [->|Hr']%add_range_elem_of.
      * simpl. lia.
      * rewrite Forall_forall in Hall. by apply Hall.
Qed.

Lemma delete_wf rs k : wf_index rs -> wf_index (delete k rs).
Proof.
  revert k. induction rs as [|r rs IH]; intros k Hwf; [by destruct k|].
  destruct Hwf as (Hne & Hall & Hwf).
  destruct k as [|k]; simpl; [done|].
  split_and!; [done| |by apply IH].
  eapply Forall_forall. intros r' Hr'. rewrite Forall_forall in Hall.
  apply Hall. eapply elem_of_sublist; [done|]. apply sublist_delete.
Qed.

Lemma remove_range_wf rs p rs' :
  wf_index rs -> remove_range rs p = Some rs' -> wf_index rs'.
Proof.
  unfold remove_range. intros Hwf. case_decide; [done|].
  intros [= <-]. by apply delete_wf.
Qed.
End index_lemmas.

(** * The claims about the index *)

Lemma index_state_wf rs : index_state rs -> wf_index rs.
Proof.
  induction 1 as [|rs p size _ IH Hsize Hdis|rs p rs' _ IH Hrm].
  - done.
  - by apply add_range_wf.
  - by eapply remove_range_wf.
Qed.

(** C3 (P2, containment soundness).  On a well-formed index and for a
    non-null address [a], [find_range a] returns [r] iff [a] lies in the
    closed interval [[r.begin, r.end]] and no other range (a half-open
    interval, as the data model defines a range) contains [a]; and
    [find_range] returns no range for the null address, for the empty index
    and for an address outside the envelope [[front.begin, back.end]]. *)
Theorem find_range_containment (rs : list memory_range) (a : N) :
  wf_index rs ->
  (a <> 0 -> forall r,
     find_range rs a = Some r <->
     r ∈ rs /\ contains_incl r a /\
     forall r', r' ∈ rs -> r' <> r -> ~ contains r' a) /\
  (a = 0 -> find_range rs a = None) /\
  (rs = [] -> find_range rs a = None) /\
  (forall front back,
     head rs = Some front -> last rs = Some back ->
     a < begin front \/ end_ back < a -> find_range rs a = None).
Proof.
  intros Hwf. split_and!.
  - intros Ha r. rewrite find_range_Some. split.
    + intros (it & Hit & _ & Hr).
      destruct (find_range_iterator_cases rs a)
        as [Hend|(it' & r0 & Hit' & Hub & Hr0 & Hin & _)].
      { apply lookup_lt_Some in Hr. lia. }
      subst it it'. assert (r0 = r) as -> by congruence. clear Hr0.
      rename Hr into Hr0.
      split_and!; [by eapply list_elem_of_lookup_2|done|].
      intros r' [j Hj]%list_elem_of_lookup Hne [Hb He].
      destruct Hin as [Hb0 He0].
      destruct (decide (j < find_range_iterator rs a)%nat).
      * pose proof (wf_index_lookup _ _ _ _ _ Hwf Hj Hr0). lia.
      * assert (j <> find_range_iterator rs a) by (intros ->; congruence).
        pose proof (upper_bound_after rs a j r' Hwf ltac:(lia) Hj). lia.
    + intros ([k Hk]%list_elem_of_lookup & Hin & Hother).
      destruct (find_range_iterator_closed _ _ _ _ Hwf Ha Hk Hin)
        as [Hit|(it & r' & Hit & Hr' & Hlt & Hbeg)].
      * exists k. split_and!; [done| |done]. by eapply lookup_lt_Some.
      * destruct (Hother r').
        -- by eapply list_elem_of_lookup_2.
        -- intros ->. pose proof (wf_index_sorted _ Hwf _ _ _ _ Hk Hr' Hlt). lia.
        -- pose proof (wf_index_nonempty _ _ _ Hwf Hr').
           unfold contains, nonempty in *. lia.
  - intros ->. apply find_range_None. unfold find_range_iterator.
    by destruct (head rs), (last rs).
  - by intros ->.
  - intros front back Hf Hb Hout. apply find_range_None.
    unfold find_range_iterator. rewrite Hf, Hb.
    destruct (negb (a =? 0)); [|done].
    destruct (N.leb_spec (begin front) a), (N.leb_spec a (end_ back));
      simpl; try done; lia.
Qed.

(** The reading of "no other range contains [a]" with closed intervals
    fails where two ranges are adjacent: [find_range] attributes the shared
    boundary to the upper range although the lower one contains it too. *)
Lemma find_range_adjacent_boundary :
  let rs := [MemoryRange 16 32; MemoryRange 32 48] in
  wf_index rs /\ find_range rs 32 = Some (MemoryRange 32 48) /\
  contains_incl (MemoryRange 16 32) 32.
Proof.
  cbv zeta. split_and!.
  - cbn. unfold nonempty. simpl. split_and!; try done; try lia.
    repeat constructor; simpl; lia.
  - by vm_compute.
  - unfold contains_incl. simpl. lia.
Qed.

(** C4, as amended.  On a well-formed index, [remove_range p] erases
    exactly the range whose [begin] is the non-null [p] and leaves the
    other ranges as they are; in general it erases the range whose closed
    interval [find_range_iterator] attributes [p] to, and its assertion
    fails only when [p] is null or lies in no closed interval. *)
Theorem remove_range_spec (rs : list memory_range) (p : N) :
  wf_index rs ->
  (forall k r, p <> 0 -> rs !! k = Some r -> begin r = p ->
     remove_range rs p = Some (delete k rs)) /\
  (remove_range rs p = None <->
     p = 0 \/ forall r, r ∈ rs -> ~ contains_incl r p) /\
  (forall rs', remove_range rs p = Some rs' ->
     exists k r, rs !! k = Some r /\ contains_incl r p /\ rs' = delete k rs).
Proof.
  intros Hwf. split_and!.
  - intros k r Hp Hk Hbeg.
    pose proof (wf_index_nonempty _ _ _ Hwf Hk) as Hne. unfold nonempty in Hne.
    assert (contains_incl r p) as Hin by (unfold contains_incl; lia).
    unfold remove_range.
    destruct (find_range_iterator_closed _ _ _ _ Hwf Hp Hk Hin)
      as [Hit|(it & r' & Hit & Hr' & Hlt & Hbeg')].
    + rewrite Hit. case_decide; [|done].
      apply lookup_lt_Some in Hk. lia.
    + pose proof (wf_index_sorted _ Hwf _ _ _ _ Hk Hr' Hlt). lia.
  - rewrite <- find_range_None_iff by done. rewrite find_range_None.
    unfold remove_range. by case_decide.
  - intros rs'. unfold remove_range. case_decide as Hit; [done|].
    intros [= <-].
    destruct (find_range_iterator_cases rs p)
      as [|(it & r & Hit' & _ & Hr & Hin & _)]; [done|].
    exists it, r. by rewrite Hit'.
Qed.

(** C4, the claim as stated fails: a pointer into the interior of a range
    is not the [begin] of any range, yet the assertion holds and the range
    around it is erased. *)
Lemma remove_range_interior_not_asserted :
  wf_index [MemoryRange 100 120; MemoryRange 200 220] /\
  remove_range [MemoryRange 100 120; MemoryRange 200 220] 105
    = Some [MemoryRange 200 220] /\
  ~ remove_absent_asserts [MemoryRange 100 120; MemoryRange 200 220] 105.
Proof.
  split_and!.
  - cbn. unfold nonempty. simpl. split_and!; try done; try lia.
    repeat constructor; simpl; lia.
  - by vm_compute.
  - intros Hclaim.
    assert (remove_range [MemoryRange 100 120; MemoryRange 200 220] 105
            = None) as Hnone; [|by vm_compute in Hnone].
    apply Hclaim. intros r Hr.
    repeat (apply elem_of_cons in Hr as [->|Hr]); simpl; try lia.
    by apply elem_of_nil in Hr.
Qed.

(** C6 (P1, disjointness).  After any sequence of [add_range] and
    [remove_range] calls in which each added range is disjoint from the
    ranges present, the index is sorted by strictly increasing [begin] and
    its ranges are pairwise disjoint. *)
Theorem index_sorted_disjoint (rs : list memory_range) :
  index_state rs -> sorted_by_begin rs /\ pairwise_disjoint rs.
Proof.
  intros Hwf%index_state_wf.
  split; [by apply wf_index_sorted|by apply wf_index_disjoint].
Qed.

(** * The mark phase *)

(** ** Swap-and-pop removal from [scan] *)

Section swap_pop.
Context (l : list N) (it : nat) (idx back : N).
Hypothesis Hit : l !! it = Some idx.
Hypothesis Hback : last l = Some back.

Lemma swap_pop_eq :
  exists l', l = l' ++ [back] /\
    removelast (<[it:=back]> l) =
    (if decide (it = length l') then l' else <[it:=back]> l').
Proof.
  apply last_Some in Hback as [l' ->]. exists l'. split; [done|].
  pose proof (lookup_lt_Some _ _ _ Hit) as Hlt.
  rewrite length_app in Hlt. simpl in Hlt.
  case_decide as Hlast.
  - subst it. rewrite list_lookup_middle in Hit by done.
    simplify_eq. rewrite list_insert_id by (by apply list_lookup_middle).
    apply removelast_last.
  - rewrite insert_app_l by lia. apply removelast_last.
Qed.

Lemma swap_pop_length :
  length (removelast (<[it:=back]> l)) = pred (length l).
Proof.
  destruct swap_pop_eq as (l' & -> & ->).
  rewrite length_app. simpl.
  case_decide; [|rewrite length_insert]; lia.
Qed.

Lemma swap_pop_lookup_lt p :
  (p < it)%nat -> removelast (<[it:=back]> l) !! p = l !! p.
Proof.
  intros Hp. destruct swap_pop_eq as (l' & Hl & ->).
  pose proof (lookup_lt_Some _ _ _ Hit) as Hlt.
  rewrite Hl, length_app in Hlt. simpl in Hlt. rewrite Hl.
  rewrite lookup_app_l by lia.
  case_decide; [done|]. apply list_lookup_insert_ne. lia.
Qed.

Lemma swap_pop_perm : l ≡ₚ idx :: removelast (<[it:=back]> l).
Proof.
  destruct swap_pop_eq as (l' & Hl & ->).
  pose proof (lookup_lt_Some _ _ _ Hit) as Hlt.
  rewrite Hl, length_app in Hlt. simpl in Hlt.
  case_decide as Hlast.
  - subst it. rewrite Hl, list_lookup_middle in Hit by done.
    injection Hit as ->. rewrite Hl. symmetry. apply Permutation_cons_append.
  - assert (l' !! it = Some idx) as Hit'.
    { rewrite Hl, lookup_app_l in Hit by lia. done. }
    rewrite insert_take_drop by lia.
    rewrite Hl, <- (take_drop_middle l' it idx Hit') at 1.
    rewrite <- app_assoc. simpl.
    transitivity (idx :: back :: take it l' ++ drop (S it) l').
    + rewrite <- Permutation_middle. f_equiv.
      rewrite app_assoc. symmetry. apply Permutation_cons_append.
    + f_equiv. apply Permutation_middle.
Qed.
End swap_pop.

(** ** The inner loop *)

Section walk.
Context (info : list scan_info) (b e : N).

Local Abbreviation hit := (hit info b e).

Lemma walk_spec fuel it scan keep scan' keep' :
  walk fuel info b e it scan keep = Some (scan', keep') ->
  (forall p j, (p < it)%nat -> scan !! p = Some j -> ~ hit j) ->
  keep' ++ scan' ≡ₚ keep ++ scan /\
  (exists moved, keep' = keep ++ moved /\
                 forall j, j ∈ moved -> j ∈ scan /\ hit j) /\
  (forall j, j ∈ scan' -> ~ hit j).
Proof.
  revert it scan keep.
  induction fuel as [|fuel IH]; intros it scan keep; simpl.
  - case_decide as Hend; [|done]. intros [= <- <-] Hpre.
    split_and!; [done| |].
    + exists []. rewrite app_nil_r. split; [done|]. by intros j ?%elem_of_nil.
    + intros j [p Hp]%list_elem_of_lookup. eapply Hpre; [|done].
      apply lookup_lt_Some in Hp. lia.
  - case_decide as Hend.
    { intros [= <- <-] Hpre. split_and!; [done| |].
      + exists []. rewrite app_nil_r. split; [done|].
        by intros j ?%elem_of_nil.
      + intros j [p Hp]%list_elem_of_lookup. eapply Hpre; [|done].
        apply lookup_lt_Some in Hp. lia. }
    destruct (scan !! it) as [idx|] eqn:Hidx; simpl; [|done].
    destruct (info !! N.to_nat idx) as [si|] eqn:Hsi; simpl; [|done].
    destruct (N.leb_spec b (gp si)) as [Hb|Hb];
      [destruct (N.ltb_spec (gp si) e) as [He|He]|]; simpl.
    + destruct (last scan) as [back|] eqn:Hback; simpl; [|done].
      intros Hwalk Hpre.
      pose proof (swap_pop_perm _ _ _ _ Hidx Hback) as Hperm.
      apply IH in Hwalk as (Hp & (moved & -> & Hmoved) & Hrest).
      * split_and!.
        -- etrans; [exact Hp|]. rewrite <- app_assoc. f_equiv.
           simpl. symmetry. exact Hperm.
        -- exists (idx :: moved). rewrite <- app_assoc. split; [done|].
           intros j [->|Hj]%elem_of_cons.
           ++ split; [by eapply list_elem_of_lookup_2|by exists si].
           ++ destruct (Hmoved j Hj) as [Hin ?]. split; [|done].
              rewrite Hperm. by right.
        -- done.
      * intros p j Hlt Hj.
        rewrite (swap_pop_lookup_lt _ _ _ _ Hidx Hback) in Hj by done.
        by eapply Hpre.
    + intros Hwalk Hpre.
      apply IH in Hwalk; [done|].
      intros p j Hlt Hj. destruct (decide (p = it)) as [->|].
      * simplify_eq. intros (sj & ? & ? & ?). simplify_eq. lia.
      * eapply Hpre; [|done]. lia.
    + intros Hwalk Hpre.
      apply IH in Hwalk; [done|].
      intros p j Hlt Hj. destruct (decide (p = it)) as [->|].
      * simplify_eq. intros (sj & ? & ? & ?). simplify_eq. lia.
      * eapply Hpre; [|done]. lia.
Qed.

(** The inner loop ends within [length scan - it] iterations when every
    index in [scan] is an index of [info]. *)
Lemma walk_total fuel it scan keep :
  (forall j, j ∈ scan -> is_Some (info !! N.to_nat j)) ->
  (it <= length scan)%nat -> (length scan - it <= fuel)%nat ->
  is_Some (walk fuel info b e it scan keep).
Proof.
  revert it scan keep.
  induction fuel as [|fuel IH]; intros it scan keep Hval Hit Hfuel; simpl.
  - case_decide; [done|lia].
  - case_decide as Hend; [done|].
    destruct (lookup_lt_is_Some_2 scan it) as [idx Hidx]; [lia|].
    rewrite Hidx. simpl.
    destruct (Hval idx) as [si Hsi]; [by eapply list_elem_of_lookup_2|].
    rewrite Hsi. simpl.
    destruct (_ && _).
    + destruct (last scan) as [back|] eqn:Hback;
        [|apply last_None in Hback; subst; simpl in *; lia].
      simpl. pose proof (swap_pop_length _ _ _ _ Hidx Hback) as Hlen.
      apply IH; [|lia..].
      intros j Hj. apply Hval.
      rewrite (swap_pop_perm _ _ _ _ Hidx Hback). by right.
    + apply IH; [done|lia..].
Qed.

(** A walk that finds no slot inside the parent range changes nothing. *)
Lemma walk_quiet fuel it scan keep scan' keep' :
  walk fuel info b e it scan keep = Some (scan', keep') ->
  (forall j, j ∈ scan -> ~ hit j) -> scan' = scan /\ keep' = keep.
Proof.
  revert it. induction fuel as [|fuel IH]; intros it; simpl.
  - case_decide; [|done]. by intros [= <- <-].
  - case_decide; [by intros [= <- <-]|].
    destruct (scan !! it) as [idx|] eqn:Hidx; simpl; [|done].
    destruct (info !! N.to_nat idx) as [si|] eqn:Hsi; simpl; [|done].
    destruct (N.leb_spec b (gp si)) as [Hb|Hb];
      [destruct (N.ltb_spec (gp si) e) as [He|He]|]; simpl.
    + intros _ Hquiet. destruct (Hquiet idx).
      * by eapply list_elem_of_lookup_2.
      * by exists si.
    + intros Hw Hq. by eapply IH.
    + intros Hw Hq. by eapply IH.
Qed.
End walk.

(** ** The outer loop *)

Section mark.
Context (info0 : list scan_info) (rs : list memory_range)
        (marks0 : list bool) (keep0 scan0 : list N).

Local Abbreviation reach0 := (reach info0 rs keep0 (keep0 ++ scan0)).

Local Abbreviation mark_inv := (mark_inv info0 rs marks0 keep0 scan0).

Lemma mark_inv_skip i t k parent pr :
  mark_inv i t -> keep t !! i = Some k ->
  info t !! N.to_nat k = Some parent -> rngs t !! range parent = Some pr ->
  scanned pr = true -> mark_inv (S i) t.
Proof.
  intros [] Hk Hparent Hpr Hsc. split; try done.
  - intros p x sx Hp Hx Hsx. destruct (decide (p = i)) as [->|].
    + assert (x = k) as -> by congruence.
      assert (sx = parent) as -> by congruence. by exists pr.
    + eapply inv_done0; [|done..]. lia.
  - apply lookup_lt_Some in Hk. lia.
Qed.

Lemma mark_inv_walk i t k parent pr fuel scan' keep' :
  mark_inv i t -> keep t !! i = Some k ->
  info t !! N.to_nat k = Some parent -> rngs t !! range parent = Some pr ->
  walk fuel (info t) (sr_begin pr) (sr_end pr) 0 (scan t) (keep t)
    = Some (scan', keep') ->
  mark_inv (S i)
    (Trace (<[range parent := set_scanned true pr]> (rngs t)) (info t)
           scan' keep').
Proof.
  intros [] Hk Hparent Hpr Hwalk.
  apply walk_spec in Hwalk as (Hperm & (moved & -> & Hmoved) & Hrest);
    [|intros; lia].
  assert (forall j, j ∈ scan' -> j ∈ scan t) as Hsub.
  { intros j Hj. rewrite <- app_assoc in Hperm.
    apply Permutation_app_inv_l in Hperm. rewrite <- Hperm.
    apply elem_of_app. by right. }
  pose proof (lookup_lt_Some _ _ _ Hpr) as Hlt.
  split; simpl.
  - done.
  - rewrite list_fmap_insert. rewrite list_insert_id; [done|].
    by rewrite list_lookup_fmap, Hpr.
  - rewrite list_fmap_insert. rewrite list_insert_id; [done|].
    by rewrite list_lookup_fmap, Hpr.
  - by rewrite Hperm.
  - intros x Hx. apply elem_of_app. left. by apply inv_keep1.
  - intros x [Hx|Hx]%elem_of_app; [by apply inv_reach0|].
    destruct (Hmoved x Hx) as (Hscan & sj & Hsj & Hb & He).
    rewrite inv_info0 in *.
    eapply (reach_inside _ _ _ _ k x parent sj (range_of pr)); try done.
    + apply inv_reach0. by eapply list_elem_of_lookup_2.
    + rewrite <- inv_perm0. apply elem_of_app. by right.
    + by rewrite <- inv_bounds0, list_lookup_fmap, Hpr.
  - intros p x sx Hp Hx Hsx.
    pose proof (lookup_lt_Some _ _ _ Hk) as Hi.
    rewrite lookup_app_l in Hx by lia.
    assert (exists sr, rngs t !! range sx = Some sr /\
              (scanned sr = true \/ range sx = range parent))
      as (sr & Hsr & Hcase).
    { destruct (decide (p = i)) as [->|].
      - assert (x = k) as -> by congruence.
        assert (sx = parent) as -> by congruence.
        exists pr. by split; [|right].
      - destruct (inv_done0 p x sx) as (sr & ? & ?); [lia|done..|].
        exists sr. by split; [|left]. }
    destruct (decide (range sx = range parent)) as [Heq|Hne].
    + rewrite Heq. exists (set_scanned true pr).
      by rewrite list_lookup_insert_eq.
    + exists sr. rewrite list_lookup_insert_ne by done.
      by destruct Hcase.
  - intros k' sr j sj Hsr Hsc Hj Hsj.
    destruct (decide (k' = range parent)) as [->|Hne].
    + rewrite list_lookup_insert_eq in Hsr by done. injection Hsr as <-.
      intros [Hb He]. apply (Hrest j Hj). exists sj.
      by rewrite inv_info0.
    + rewrite list_lookup_insert_ne in Hsr by done.
      by eapply inv_scanned0; [..|apply Hsub|].
  - rewrite length_app. apply lookup_lt_Some in Hk. lia.
Qed.

Lemma mark_spec fuel i t t' :
  mark fuel i t = Some t' -> mark_inv i t ->
  mark_inv (length (keep t')) t'.
Proof.
  revert i t. induction fuel as [|fuel IH]; intros i t; simpl.
  - case_decide as Hend; [|done]. by intros [= <-] ?; subst.
  - case_decide as Hend; [by intros [= <-] ?; subst|].
    destruct (keep t !! i) as [k|] eqn:Hk; simpl; [|done].
    destruct (info t !! N.to_nat k) as [parent|] eqn:Hparent; simpl;
      [|done].
    destruct (rngs t !! range parent) as [pr|] eqn:Hpr; simpl; [|done].
    destruct (scanned pr) eqn:Hsc.
    + intros Hm Hinv. eapply IH; [done|]. by eapply mark_inv_skip.
    + destruct (walk _ _ _ _ _ _ _) as [[scan' keep']|] eqn:Hwalk; simpl;
        [|done].
      intros Hm Hinv. eapply IH; [done|]. by eapply mark_inv_walk.
Qed.

(** At the end of the loop [keep] holds exactly the reachable records. *)
Lemma mark_inv_closed t j :
  mark_inv (length (keep t)) t -> reach0 j -> j ∈ keep t.
Proof.
  intros [] Hreach.
  induction Hreach as [j Hj|i j si sj r _ IH Hall Hsi Hsj Hr Hin].
  - by apply inv_keep1.
  - apply list_elem_of_lookup in IH as [p Hp].
    destruct (inv_done0 p i si) as (sr & Hsr & Hsc);
      [by eapply lookup_lt_Some|done..|].
    assert (range_of sr = r) as Hbounds.
    { rewrite <- inv_bounds0, list_lookup_fmap, Hsr in Hr. by injection Hr. }
    rewrite <- inv_perm0 in Hall.
    apply elem_of_app in Hall as [|Hscan]; [done|].
    destruct (inv_scanned0 _ sr j sj Hsr Hsc Hscan Hsj).
    by rewrite Hbounds.
Qed.

Lemma mark_inv_init t :
  info t = info0 -> range_of <$> rngs t = rs ->
  managed <$> rngs t = marks0 -> keep t = keep0 -> scan t = scan0 ->
  Forall (fun sr => scanned sr = false) (rngs t) ->
  mark_inv 0 t.
Proof.
  intros Hinfo Hb Hm Hk Hs Hun. split; try done.
  - by rewrite Hk, Hs.
  - by rewrite Hk.
  - rewrite Hk. by constructor.
  - intros; lia.
  - intros k sr j sj Hsr Hsc. rewrite Forall_forall in Hun.
    rewrite Hun in Hsc; [done|]. by eapply list_elem_of_lookup_2.
  - lia.
Qed.
End mark.


(** ** Termination of the mark phase *)

Lemma trace_valid_walk t (parent : scan_info) pr fuel scan' keep' :
  trace_valid t ->
  walk fuel (info t) (sr_begin pr) (sr_end pr) 0 (scan t) (keep t)
    = Some (scan', keep') ->
  trace_valid
    (Trace (<[range parent := set_scanned true pr]> (rngs t)) (info t)
           scan' keep') /\
  (length keep' + length scan' = length (keep t) + length (scan t))%nat /\
  (length (keep t) <= length keep')%nat.
Proof.
  intros [Hidx Hrng] Hwalk.
  apply walk_spec in Hwalk as (Hperm & (moved & -> & _) & _); [|intros; lia].
  split_and!.
  - split; simpl.
    + intros j Hj. apply Hidx. by rewrite <- Hperm.
    + intros si Hsi. rewrite length_insert. by apply Hrng.
  - rewrite <- !length_app. by rewrite Hperm.
  - rewrite length_app. lia.
Qed.

Lemma mark_total fuel i t :
  trace_valid t -> (i <= length (keep t))%nat ->
  (length (keep t) + length (scan t) - i <= fuel)%nat ->
  exists t', mark fuel i t = Some t' /\
    (length (keep t') + length (scan t')
     = length (keep t) + length (scan t))%nat.
Proof.
  revert i t. induction fuel as [|fuel IH]; intros i t Hval Hi Hfuel; simpl.
  - case_decide; [by exists t|lia].
  - case_decide as Hend; [by exists t|].
    destruct (lookup_lt_is_Some_2 (keep t) i) as [k Hk]; [lia|].
    rewrite Hk. simpl.
    destruct Hval as [Hidx Hrng].
    destruct (Hidx k) as [parent Hparent].
    { apply elem_of_app. left. by eapply list_elem_of_lookup_2. }
    rewrite Hparent. simpl.
    destruct (lookup_lt_is_Some_2 (rngs t) (range parent)) as [pr Hpr].
    { apply Hrng. by eapply list_elem_of_lookup_2. }
    rewrite Hpr. simpl.
    destruct (scanned pr).
    + apply IH; [done|lia..].
    + destruct (walk_total (info t) (sr_begin pr) (sr_end pr)
                  (length (scan t)) 0 (scan t) (keep t))
        as [[scan' keep'] Hwalk]; [|lia..|].
      { intros j Hj. apply Hidx, elem_of_app. by right. }
      rewrite Hwalk. simpl.
      destruct (trace_valid_walk t parent pr _ _ _ (conj Hidx Hrng) Hwalk)
        as (Hval' & Hlen & Hle).
      destruct (IH (S i) (Trace (<[range parent:=set_scanned true pr]> (rngs t))
                            (info t) scan' keep')) as (t' & Ht' & Hlen');
        [done|simpl; lia..|].
      exists t'. split; [done|]. simpl in Hlen'. lia.
Qed.

Lemma mark_quiet fuel i t t' :
  mark fuel i t = Some t' -> quiescent i t ->
  keep t' = keep t /\ scan t' = scan t.
Proof.
  revert i t. induction fuel as [|fuel IH]; intros i t; simpl.
  - case_decide; [|done]. by intros [= <-].
  - case_decide as Hend; [by intros [= <-]|].
    destruct (keep t !! i) as [k|] eqn:Hk; simpl; [|done].
    destruct (info t !! N.to_nat k) as [parent|] eqn:Hparent; simpl; [|done].
    destruct (rngs t !! range parent) as [pr|] eqn:Hpr; simpl; [|done].
    destruct (scanned pr) eqn:Hsc.
    + intros Hm Hq. eapply IH; [done|].
      intros p x sx sr j sj Hp. apply Hq. lia.
    + destruct (walk _ _ _ _ _ _ _) as [[scan' keep']|] eqn:Hwalk; simpl;
        [|done].
      intros Hm Hq.
      apply walk_quiet in Hwalk as [-> ->].
      * apply IH in Hm; [done|]. simpl.
        intros p x sx sr j sj Hp Hx Hsx Hsr Hun Hj Hsj. simpl in *.
        destruct (decide (range sx = range parent)) as [Heq|Hne].
        -- rewrite Heq, list_lookup_insert_eq in Hsr
             by (by eapply lookup_lt_Some).
           injection Hsr as <-. done.
        -- rewrite list_lookup_insert_ne in Hsr by done.
           eapply (Hq p x sx sr j sj); try done. lia.
      * intros j Hj (sj & Hsj & Hb & He).
        by eapply (Hq i k parent pr j sj).
Qed.

(** C8 (termination of the mark phase).  On finite arrays whose indices are
    in bounds, the work-list loop started at any work index [i] reaches the
    end of [keep] within [keep.size() + scan.size() - i] iterations; [keep]
    and [scan] only exchange records, and nothing is added to [keep] once
    no record of [scan] is stored inside a kept, unscanned range. *)
Theorem mark_terminates (t : trace) (i fuel : nat) :
  trace_valid t -> (i <= length (keep t))%nat ->
  (length (keep t) + length (scan t) - i <= fuel)%nat ->
  exists t',
    mark fuel i t = Some t' /\
    (length (keep t') + length (scan t')
     = length (keep t) + length (scan t))%nat /\
    (quiescent i t -> keep t' = keep t /\ scan t' = scan t).
Proof.
  intros Hval Hi Hfuel.
  destruct (mark_total fuel i t Hval Hi Hfuel) as (t' & Hm & Hlen).
  exists t'. split_and!; [done..|].
  intros Hq. by eapply mark_quiet.
Qed.

(** * The snapshot phase *)

Lemma for_each_ind {A S : Type} (I : list A -> S -> Prop)
    (body : S -> A -> option S) (l : list A) (s s' : S) :
  for_each body l s = Some s' -> I [] s ->
  (forall done x rest s0 s1,
      l = done ++ x :: rest -> I done s0 -> body s0 x = Some s1 ->
      I (done ++ [x]) s1) ->
  I l s'.
Proof.
  intros Hrun Hinit Hstep.
  assert (forall todo done s0,
             l = done ++ todo -> I done s0 ->
             for_each body todo s0 = Some s' -> I l s') as Hgen.
  { induction todo as [|x todo IH]; intros done s0 Hl Hdone; simpl.
    - intros [= <-]. by rewrite Hl, app_nil_r.
    - destruct (body s0 x) as [s1|] eqn:Hbody; simpl; [|done].
      apply (IH (done ++ [x])).
      + by rewrite <- app_assoc.
      + by eapply Hstep. }
  by eapply (Hgen l []).
Qed.

Lemma uint32_small (n : N) : n < 2 ^ 32 -> uint32 n = n.
Proof. apply N.mod_small. Qed.

Section snapshot.
Context (rs : list memory_range).

Local Abbreviation snap_inv := (snap_inv rs).

Lemma snap_inv_length t : snap_inv t -> length (rngs t) = length rs.
Proof. intros []. by rewrite <- snap_bounds0, length_fmap. Qed.

Lemma snap_inv_index t j :
  snap_inv t ->
  j ∈ keep t ++ scan t <->
  exists p : nat, j = N.of_nat p /\ (p < length (info t))%nat.
Proof.
  intros []. rewrite snap_perm0, list_elem_of_fmap.
  split.
  - intros (p & -> & Hp%elem_of_seq). exists p. split; [done|lia].
  - intros (p & -> & Hp). exists p. split; [done|].
    apply elem_of_seq. lia.
Qed.

Lemma record_slot_Some t slot idx_r m t' :
  record_slot rs t slot idx_r m = Some t' ->
  exists r, rngs t !! idx_r = Some r /\
    rngs t' = <[idx_r := set_managed m r]> (rngs t) /\
    info t' = info t ++ [ScanInfo slot idx_r] /\
    ((find_range rs slot = None /\
      keep t' = keep t ++ [uint32 (N.of_nat (length (info t)))] /\
      scan t' = scan t) \/
     (find_range rs slot <> None /\ keep t' = keep t /\
      scan t' = scan t ++ [uint32 (N.of_nat (length (info t)))])).
Proof.
  unfold record_slot.
  destruct (rngs t !! idx_r) as [r|]; simpl; [|done].
  case_bool_decide as Hroot; intros [= <-]; simpl; exists r;
    split_and!; try done; [left|right]; done.
Qed.

Lemma record_slot_inv t slot idx_r m t' :
  snap_inv t -> N.of_nat (length (info t)) < 2 ^ 32 ->
  record_slot rs t slot idx_r m = Some t' -> snap_inv t'.
Proof.
  intros Hinv Hfit Hrec.
  pose proof (fun j => snap_inv_index t j Hinv) as Hindex.
  pose proof (snap_inv_length t Hinv) as Hlen.
  destruct Hinv.
  apply record_slot_Some in Hrec
    as (r & Hr & Hrngs & Hinfo & Hcase).
  rewrite uint32_small in Hcase by done.
  set (n := length (info t)) in *.
  assert (forall j si, j ∈ keep t ++ scan t ->
            info t' !! N.to_nat j = Some si ->
            info t !! N.to_nat j = Some si) as Hold.
  { intros j si (p & -> & Hp)%Hindex.
    rewrite Hinfo, lookup_app_l; [done|]. lia. }
  assert (forall si, info t' !! N.to_nat (N.of_nat n) = Some si ->
            gp si = slot) as Hnew.
  { intros si. rewrite Hinfo, Nat2N.id.
    rewrite list_lookup_middle by done. by intros [= <-]. }
  split.
  - rewrite Hrngs, list_fmap_insert. rewrite list_insert_id; [done|].
    by rewrite list_lookup_fmap, Hr.
  - rewrite Hrngs. apply Forall_insert; [done|].
    rewrite Forall_forall in snap_unscanned0. simpl.
    apply snap_unscanned0. by eapply list_elem_of_lookup_2.
  - rewrite Hinfo, length_app. simpl.
    replace (length (info t) + 1)%nat with (S n) by (unfold n; lia).
    rewrite seq_S, fmap_app. simpl.
    destruct Hcase as [(_ & -> & ->)|(_ & -> & ->)].
    + rewrite <- snap_perm0, <- !app_assoc. f_equiv.
      apply Permutation_app_comm.
    + by rewrite <- snap_perm0, <- !app_assoc.
  - intros j si Hj Hsi.
    destruct Hcase as [(Hroot & Hk & _)|(_ & Hk & _)]; rewrite Hk in Hj.
    + apply elem_of_app in Hj as [Hj|Hj%list_elem_of_singleton].
      * eapply snap_keep0; [done|]. apply Hold; [|done].
        apply elem_of_app. by left.
      * subst j. by rewrite (Hnew si Hsi).
    + eapply snap_keep0; [done|]. apply Hold; [|done].
      apply elem_of_app. by left.
  - intros j si Hj Hsi.
    destruct Hcase as [(_ & _ & Hs)|(Hroot & _ & Hs)]; rewrite Hs in Hj.
    + eapply snap_scan0; [done|]. apply Hold; [|done].
      apply elem_of_app. by right.
    + apply elem_of_app in Hj as [Hj|Hj%list_elem_of_singleton].
      * eapply snap_scan0; [done|]. apply Hold; [|done].
        apply elem_of_app. by right.
      * subst j. by rewrite (Hnew si Hsi).
  - intros si. rewrite Hinfo.
    intros [Hsi|Hsi%list_elem_of_singleton]%elem_of_app.
    + by apply snap_range0.
    + subst si. simpl. rewrite <- Hlen. by eapply lookup_lt_Some.
Qed.

Lemma snap_inv_init :
  snap_inv
    (Trace ((fun r => ScanRange (begin r) (end_ r) false false) <$> rs)
           [] [] []).
Proof.
  split; simpl.
  - induction rs as [|[b e] rs' IH]; csimpl; [done|]. by f_equal.
  - apply Forall_fmap. by apply Forall_true.
  - done.
  - intros j si Hj. by apply elem_of_nil in Hj.
  - intros j si Hj. by apply elem_of_nil in Hj.
  - intros si Hsi. by apply elem_of_nil in Hsi.
Qed.
End snapshot.

Lemma elem_of_snoc {A : Type} (l : list A) (x y : A) :
  y ∈ l ++ [x] <-> y ∈ l \/ y = x.
Proof. by rewrite elem_of_app, list_elem_of_singleton. Qed.

Lemma lookup_insert_managed (l : list scan_range) (idx_r k : nat) r m sr :
  l !! idx_r = Some r -> <[idx_r := set_managed m r]> l !! k = Some sr ->
  (k = idx_r /\ managed sr = m) \/ (k <> idx_r /\ l !! k = Some sr).
Proof.
  intros Hr Hsr. destruct (decide (k = idx_r)) as [->|Hne].
  - left. rewrite list_lookup_insert_eq in Hsr by (by eapply lookup_lt_Some).
    by injection Hsr as <-.
  - right. by rewrite list_lookup_insert_ne in Hsr.
Qed.

Section snapshot_loops.
Context (rs : list memory_range).

Lemma own_inv_step done x rest t0 t1 :
  N.of_nat (length (done ++ x :: rest)) < 2 ^ 32 ->
  own_inv rs done t0 -> snap_owning rs t0 x = Some t1 ->
  own_inv rs (done ++ [x]) t1.
Proof.
  intros Hfit (Hinv & Hlen & Hinfo & Hman). unfold snap_owning.
  rewrite length_app in Hfit. simpl in Hfit.
  destruct (gp_ptr x) as [h|] eqn:Hx.
  - intros Hrec.
    pose proof (record_slot_inv rs _ _ _ _ _ Hinv ltac:(lia) Hrec) as Hinv'.
    apply record_slot_Some in Hrec as (r & Hr & Hrngs & Hinfo' & _).
    split_and!; [done|rewrite Hinfo', !length_app; simpl; lia| |].
    + intros si. rewrite Hinfo', elem_of_app, list_elem_of_singleton, Hinfo.
      split.
      * intros [(s & ? & ? & ?)| ->].
        -- exists s. rewrite elem_of_app. by split_and!; [left|..].
        -- exists x. rewrite elem_of_app, list_elem_of_singleton, Hx.
           by split_and!; [right|..].
      * intros (s & [Hs| ->]%elem_of_snoc & ? & ?).
        -- left. by exists s.
        -- by right.
    + intros k sr. rewrite Hrngs. intros Hsr.
      destruct (lookup_insert_managed _ _ _ _ _ _ Hr Hsr)
        as [[-> ->]|[Hne Hold]].
      * split; [|done]. intros _. exists x.
        rewrite elem_of_app, list_elem_of_singleton, Hx.
        by split_and!; [right|..].
      * rewrite (Hman k sr Hold). split.
        -- intros (s & ? & ? & ?). exists s. rewrite elem_of_app.
           by split_and!; [left|..].
        -- intros (s & [Hs| ->]%elem_of_snoc & ? & ?);
             [by exists s|done].
  - intros [= <-].
    split_and!; [done|rewrite length_app; lia| |].
    + intros si. rewrite Hinfo. split.
      * intros (s & ? & ? & ?). exists s. rewrite elem_of_app.
        by split_and!; [left|..].
      * intros (s & [Hs| ->]%elem_of_snoc & Hsome & ?);
          [by exists s|].
        rewrite Hx in Hsome. by destruct Hsome.
    + intros k sr Hsr. rewrite (Hman k sr Hsr). split.
      * intros (s & ? & ? & ?). exists s. rewrite elem_of_app.
        by split_and!; [left|..].
      * intros (s & [Hs| ->]%elem_of_snoc & Hsome & ?);
          [by exists s|].
        rewrite Hx in Hsome. by destruct Hsome.
Qed.

Lemma raw_inv_step own done x rest t0 t1 :
  N.of_nat (length own + length (done ++ x :: rest)) < 2 ^ 32 ->
  raw_inv rs own done t0 -> snap_raw rs t0 x = Some t1 ->
  raw_inv rs own (done ++ [x]) t1.
Proof.
  intros Hfit (Hinv & Hlen & Hinfo & Hman). unfold snap_raw.
  rewrite length_app in Hfit. simpl in Hfit.
  pose proof (snap_inv_length rs t0 Hinv) as Hrlen.
  case_decide as Hend.
  - intros [= <-].
    split_and!; [done|rewrite length_app; lia| |].
    + intros si. rewrite Hinfo. split.
      * intros [?|(o & ? & ? & ?)]; [by left|right].
        exists o. rewrite elem_of_app. by split_and!; [left|..].
      * intros [?|(o & [Ho| ->]%elem_of_snoc & ? & ?)];
          [by left|right; by exists o|lia].
    + intros k sr Hsr. rewrite (Hman k sr Hsr).
      apply lookup_lt_Some in Hsr.
      split; intros [Hown Hno]; (split; [done|]).
      * intros (o & [Ho| ->]%elem_of_snoc & ?);
          [apply Hno; by exists o|lia].
      * intros (o & Ho & ?). apply Hno. exists o. rewrite elem_of_app.
        by split; [left|].
  - intros Hrec.
    pose proof (record_slot_inv rs _ _ _ _ _ Hinv ltac:(lia) Hrec) as Hinv'.
    apply record_slot_Some in Hrec as (r & Hr & Hrngs & Hinfo' & _).
    pose proof (find_range_iterator_le rs (rgp_ptr x)) as Hle.
    split_and!; [done|rewrite Hinfo', !length_app; simpl; lia| |].
    + intros si. rewrite Hinfo', elem_of_app, list_elem_of_singleton, Hinfo.
      split.
      * intros [[?|(o & ? & ? & ?)]| ->]; [by left|right..].
        -- exists o. rewrite elem_of_app. by split_and!; [left|..].
        -- exists x. rewrite elem_of_app, list_elem_of_singleton.
           split_and!; [by right|lia|done].
      * intros [?|(o & [Ho| ->]%elem_of_snoc & ? & ?)].
        -- by left; left.
        -- left; right. by exists o.
        -- by right.
    + intros k sr. rewrite Hrngs. intros Hsr.
      destruct (lookup_insert_managed _ _ _ _ _ _ Hr Hsr)
        as [[-> ->]|[Hne Hold]].
      * split; [done|]. intros [_ Hno]. destruct Hno. exists x.
        rewrite elem_of_app, list_elem_of_singleton. by split; [right|].
      * rewrite (Hman k sr Hold).
        split; intros [Hown Hno]; (split; [done|]).
        -- intros (o & [Ho| ->]%elem_of_snoc & ?);
             [apply Hno; by exists o|done].
        -- intros (o & Ho & ?). apply Hno. exists o. rewrite elem_of_app.
           by split; [left|].
Qed.
End snapshot_loops.

(** What the snapshot of a graph holds: the bounds of the index, one
    record per recorded slot, the roots in [keep], and the [managed]
    flags. *)
Lemma snapshot_spec (g : graph) (t : trace) :
  wf_graph g -> snapshot g = Some t ->
  snap_inv (ranges g) t /\
  (forall si, si ∈ info t <-> has_record g si) /\
  (forall (k : nat) sr, rngs t !! k = Some sr ->
     (managed sr = true <->
      (exists s, owner_of g s k) /\ ~ exists o, observer_of g o k)).
Proof.
  intros [_ Hfit]. unfold snapshot.
  destruct (for_each (snap_owning (ranges g)) (pointers g) _)
    as [t1|] eqn:Hown; simpl; [|done].
  intros Hraw.
  rewrite Nat2N.inj_add in Hfit.
  assert (own_inv (ranges g) (pointers g) t1) as Hinv1.
  { eapply (for_each_ind (own_inv (ranges g))); [exact Hown| |].
    - split_and!; [apply snap_inv_init|simpl; lia| |].
      + simpl. intros si. split; [by intros ?%elem_of_nil|].
        by intros (s & ?%elem_of_nil & _).
      + simpl. intros k sr [r [-> _]]%list_lookup_fmap_Some. simpl.
        split; [done|]. by intros (s & ?%elem_of_nil & _).
    - intros done x rest t0 t0' Hl. apply (own_inv_step _ _ _ rest).
      rewrite <- Hl. lia. }
  assert (raw_inv (ranges g) (pointers g) (rawPointers g) t) as Hinv2.
  { eapply (for_each_ind (raw_inv (ranges g) (pointers g))); [exact Hraw| |].
    - destruct Hinv1 as (? & ? & Hinfo & Hman).
      split_and!; [done|simpl; lia| |].
      + intros si. rewrite Hinfo. split; [by left|].
        intros [?|(o & ?%elem_of_nil & _)]; done.
      + intros k sr Hsr. rewrite (Hman k sr Hsr).
        split; [|by intros [? _]]. intros ?. split; [done|].
        by intros (o & ?%elem_of_nil & _).
    - intros done x rest t0 t0' Hl. apply (raw_inv_step _ _ _ _ rest).
      rewrite <- Hl. lia. }
  destruct Hinv2 as (Hinv & _ & Hinfo & Hman).
  split_and!; [done| |].
  - intros [a k]. rewrite Hinfo. unfold has_record, owner_of, observer_of.
    simpl. split.
    + intros [(s & ? & ? & [= -> ->])|(o & ? & ? & [= -> ->])].
      * left. by exists s.
      * right. by exists o.
    + intros [(s & (? & ? & <-) & ->)|(o & (? & <- & ?) & ->)].
      * left. by exists s.
      * right. by exists o.
  - intros k sr Hsr. rewrite (Hman k sr Hsr).
    pose proof (lookup_lt_Some _ _ _ Hsr) as Hk.
    rewrite (snap_inv_length _ _ Hinv) in Hk.
    unfold owner_of, observer_of. split; intros [Hown' Hno].
    + split; [destruct Hown' as (s & ?); by exists s|].
      intros (o & ? & ? & _). apply Hno. by exists o.
    + split; [destruct Hown' as (s & ?); by exists s|].
      intros (o & ? & ?). apply Hno. by exists o.
Qed.

(** * From the trace back to the graph *)

Section trace.
Context (g : graph) (t : trace).
Hypothesis Hwf : wf_graph g.
Hypothesis Hsnap : snapshot g = Some t.

Local Abbreviation reach_t :=
  (reach (info t) (ranges g) (keep t) (keep t ++ scan t)).

Lemma reach_kept j :
  reach_t j -> forall sj, info t !! N.to_nat j = Some sj -> kept g (gp sj).
Proof.
  destruct (snapshot_spec g t Hwf Hsnap) as (Hinv & Hrec & _).
  induction 1 as [j Hj|i j si sj' r _ IH Hall Hsi Hsj' Hr Hin];
    intros sj Hsj.
  - apply kept_root. by eapply (snap_keep _ _ Hinv).
  - assert (sj' = sj) as -> by congruence.
    eapply (kept_inside g _ si r); [by apply IH| |done..].
    apply Hrec. by eapply list_elem_of_lookup_2.
Qed.

Lemma kept_reach a :
  kept g a ->
  forall j sj, j ∈ keep t ++ scan t -> info t !! N.to_nat j = Some sj ->
    gp sj = a -> reach_t j.
Proof.
  destruct (snapshot_spec g t Hwf Hsnap) as (Hinv & Hrec & _).
  induction 1 as [a Hroot|a si r _ IH Hsi Hr Hin]; intros j sj Hj Hsj Ha.
  - apply elem_of_app in Hj as [Hj|Hj]; [by apply reach_root|].
    destruct (snap_scan _ _ Hinv j sj Hj Hsj). by rewrite Ha.
  - apply Hrec, list_elem_of_lookup in Hsi as [n Hn].
    assert (N.of_nat n ∈ keep t ++ scan t) as Hi.
    { apply (snap_inv_index _ _ _ Hinv). exists n. split; [done|].
      by eapply lookup_lt_Some. }
    eapply (reach_inside _ _ _ _ (N.of_nat n) j si sj r); try done.
    + eapply IH; [done| |done]. by rewrite Nat2N.id.
    + by rewrite Nat2N.id.
    + by rewrite Ha.
Qed.

(** After the mark phase [keep] holds the records of the slots stored at
    kept addresses and [scan] holds the others. *)
Lemma trace_spec fuel t' :
  mark fuel 0 t = Some t' ->
  info t' = info t /\
  managed <$> rngs t' = managed <$> rngs t /\
  (forall (n : nat) sj, info t !! n = Some sj ->
     (N.of_nat n ∈ keep t' <-> kept g (gp sj)) /\
     (N.of_nat n ∈ scan t' <-> ~ kept g (gp sj))) /\
  (forall j, j ∈ scan t' ->
     exists n : nat, j = N.of_nat n /\ (n < length (info t))%nat).
Proof.
  intros Hmark.
  destruct (snapshot_spec g t Hwf Hsnap) as (Hinv & Hrec & _).
  pose proof (mark_spec (info t) (ranges g) (managed <$> rngs t)
                (keep t) (scan t) fuel 0 t t' Hmark) as Hend.
  destruct Hend as [Hinfo Hb Hm Hperm Hk0 Hreach Hdone Hsc Hi].
  { apply mark_inv_init; try done; by destruct Hinv. }
  assert (mark_inv (info t) (ranges g) (managed <$> rngs t) (keep t) (scan t)
            (length (keep t')) t') as Hfinal by done.
  assert (NoDup (keep t' ++ scan t')) as Hnodup.
  { rewrite Hperm, (snap_perm _ _ Hinv).
    apply (NoDup_fmap_2 _), NoDup_seq. }
  apply NoDup_app in Hnodup as (_ & Hdisj & _).
  assert (forall n sj, info t !! n = Some sj ->
            N.of_nat n ∈ keep t' <-> kept g (gp sj)) as Hkeep.
  { intros n sj Hsj. split.
    - intros Hn. eapply reach_kept; [by apply Hreach|]. by rewrite Nat2N.id.
    - intros Hkept. eapply mark_inv_closed; [exact Hfinal|].
      eapply kept_reach; [done| | |done].
      + apply (snap_inv_index _ _ _ Hinv). exists n. split; [done|].
        by eapply lookup_lt_Some.
      + by rewrite Nat2N.id. }
  split_and!; [done..| |].
  - intros n sj Hsj. split; [by apply Hkeep|].
    rewrite <- (Hkeep n sj Hsj). split.
    + intros Hscan Hin. by apply (Hdisj _ Hin).
    + intros Hnot.
      assert (N.of_nat n ∈ keep t' ++ scan t') as Hin.
      { rewrite Hperm. apply (snap_inv_index _ _ _ Hinv). exists n.
        split; [done|]. by eapply lookup_lt_Some. }
      apply elem_of_app in Hin as [|]; done.
  - intros j Hj. apply (snap_inv_index _ _ _ Hinv).
    rewrite <- Hperm. apply elem_of_app. by right.
Qed.
End trace.

(** * The sweep phase *)

Section sweep.
Context (t : trace).

(** Record [j] is swept: its range is [managed]. *)
Local Abbreviation swept j a :=
  (exists sj sr, info t !! N.to_nat j = Some sj /\
     rngs t !! range sj = Some sr /\ managed sr = true /\ gp sj = a).

Lemma sweep_addr todo ptrs acc ptrs' gb :
  sweep t todo ptrs acc = Some (ptrs', gb) ->
  gp_addr <$> ptrs' = gp_addr <$> ptrs.
Proof.
  revert ptrs acc. induction todo as [|idx todo IH]; intros ptrs acc; simpl.
  - by intros [= <- <-].
  - destruct (info t !! N.to_nat idx) as [si|]; simpl; [|done].
    destruct (rngs t !! range si) as [r|]; simpl; [|done].
    destruct (managed r); [|by apply IH].
    destruct (list_find _ ptrs) as [[k mptr]|] eqn:Hfind; simpl; [|done].
    intros ->%IH. apply list_find_Some in Hfind as (Hk & _ & _).
    rewrite list_fmap_insert. simpl. apply list_insert_id.
    by rewrite list_lookup_fmap, Hk.
Qed.

(** A slot at an address that is not swept keeps its strong reference. *)
Lemma sweep_untouched todo ptrs acc ptrs' gb (p : nat) s :
  sweep t todo ptrs acc = Some (ptrs', gb) ->
  ptrs !! p = Some s ->
  (forall j, j ∈ todo -> ~ swept j (gp_addr s)) ->
  ptrs' !! p = Some s.
Proof.
  revert ptrs acc. induction todo as [|idx todo IH]; intros ptrs acc; simpl.
  - by intros [= <- <-].
  - destruct (info t !! N.to_nat idx) as [si|] eqn:Hsi; simpl; [|done].
    destruct (rngs t !! range si) as [r|] eqn:Hr; simpl; [|done].
    destruct (managed r) eqn:Hm.
    + destruct (list_find _ ptrs) as [[k mptr]|] eqn:Hfind; simpl; [|done].
      intros Hsweep Hp Hnot. eapply IH; [done| |].
      * apply list_find_Some in Hfind as (Hk & Haddr & _).
        rewrite list_lookup_insert_ne; [done|]. intros ->.
        apply (Hnot idx); [by left|]. exists si, r.
        split_and!; try done. congruence.
      * intros j Hj. apply Hnot. by right.
    + intros Hsweep Hp Hnot. eapply IH; [done..|].
      intros j Hj. apply Hnot. by right.
Qed.

(** Every element of the batch was moved out of an owning slot. *)
Lemma sweep_from todo ptrs acc ptrs' gb :
  sweep t todo ptrs acc = Some (ptrs', gb) ->
  exists more, gb = acc ++ more /\
    forall x, x ∈ more -> x = None \/ exists s, s ∈ ptrs /\ gp_ptr s = x.
Proof.
  revert ptrs acc. induction todo as [|idx todo IH]; intros ptrs acc; simpl.
  - intros [= <- <-]. exists []. rewrite app_nil_r. split; [done|].
    by intros x ?%elem_of_nil.
  - destruct (info t !! N.to_nat idx) as [si|] eqn:Hsi; simpl; [|done].
    destruct (rngs t !! range si) as [r|] eqn:Hr; simpl; [|done].
    destruct (managed r) eqn:Hm; [|by apply IH].
    destruct (list_find _ ptrs) as [[k mptr]|] eqn:Hfind; simpl; [|done].
    intros (more & -> & Hmore)%IH.
    apply list_find_Some in Hfind as (Hk & _ & _).
    exists (gp_ptr mptr :: more). rewrite <- app_assoc. split; [done|].
    intros x [->|Hx]%elem_of_cons.
    + right. exists mptr. split; [|done]. by eapply list_elem_of_lookup_2.
    + destruct (Hmore x Hx) as [|(s & Hs & <-)]; [by left|].
      apply list_elem_of_lookup in Hs as [i Hi].
      apply list_lookup_insert_Some in Hi as [(_ & <- & _)|(_ & Hi)].
      * by left.
      * right. exists s. split; [|done]. by eapply list_elem_of_lookup_2.
Qed.


Lemma sweep_total todo ptrs acc :
  (forall j, j ∈ todo ->
     exists sj sr, info t !! N.to_nat j = Some sj /\
       rngs t !! range sj = Some sr /\
       (managed sr = true -> gp sj ∈ gp_addr <$> ptrs)) ->
  is_Some (sweep t todo ptrs acc).
Proof.
  revert ptrs acc. induction todo as [|idx todo IH]; intros ptrs acc Hok;
    simpl; [done|].
  destruct (Hok idx) as (si & r & -> & Hr & Hfound); [by left|]. simpl.
  rewrite Hr. simpl.
  destruct (managed r) eqn:Hm.
  - specialize (Hfound eq_refl).
    apply list_elem_of_fmap in Hfound as (s & Hs & Hin).
    destruct (list_find_elem_of (fun s' => gp_addr s' = gp si) ptrs s)
      as [[k mptr] Hfind]; [done..|].
    rewrite Hfind. simpl. apply IH. intros j Hj.
    destruct (Hok j) as (sj & sr & ? & ? & Hfound'); [by right|].
    exists sj, sr. split_and!; [done..|].
    apply list_find_Some in Hfind as (Hk & _ & _).
    rewrite list_fmap_insert. simpl. rewrite list_insert_id; [done|].
    by rewrite list_lookup_fmap, Hk.
  - apply IH. intros j Hj. apply Hok. by right.
Qed.
End sweep.

(** * collect *)

Lemma collect_Some (g g' : graph) (gb : garbage) :
  collecting g = false -> collect g = Some (g', gb) ->
  exists t t',
    snapshot g = Some t /\
    mark (length (keep t) + length (scan t)) 0 t = Some t' /\
    sweep t' (scan t') (pointers g) [] = Some (pointers g', gb) /\
    ranges g' = ranges g /\ rawPointers g' = rawPointers g /\
    collecting g' = false.
Proof.
  unfold collect, collect_impl. intros ->.
  destruct (snapshot g) as [t|] eqn:Hsnap; simpl; [|done].
  destruct (mark _ 0 t) as [t'|] eqn:Hmark; simpl; [|done].
  destruct (sweep t' _ _ _) as [[ptrs unreachable]|] eqn:Hsweep; simpl;
    [|done].
  intros [= <- <-]. exists t, t'. simpl. by split_and!.
Qed.

Lemma collect_busy (g : graph) :
  collecting g = true -> collect g = Some (g, []).
Proof.
  unfold collect, collect_impl. destruct g as [rs ps raws c]; simpl.
  by intros ->.
Qed.

Lemma snap_inv_valid rs t : snap_inv rs t -> trace_valid t.
Proof.
  intros Hinv. split.
  - intros j (p & -> & Hp)%(snap_inv_index _ _ _ Hinv).
    rewrite Nat2N.id. by apply lookup_lt_is_Some_2.
  - intros si Hsi. rewrite (snap_inv_length _ _ Hinv).
    by apply (snap_range _ _ Hinv).
Qed.

Lemma live_slot_kept (g : graph) (s : graph_ptr) :
  live_slot (is_root g) g s -> kept g (gp_addr s).
Proof.
  induction 1 as [s Hs Hsome Hroot|s s' r Hlive IH Hr Hs Hsome Hin].
  - by apply kept_root.
  - assert (s' ∈ pointers g /\ is_Some (gp_ptr s')) as [Hs' Hsome'].
    { by destruct Hlive. }
    apply (kept_inside g _
             (ScanInfo (gp_addr s')
                (find_range_iterator (ranges g) (gp_get s'))) r).
    + exact IH.
    + left. exists s'. by split.
    + exact Hr.
    + exact Hin.
Qed.

(** What [collect] leaves in a slot that the trace keeps, and what it puts
    in the batch for a slot that it does not keep. *)
Section collect.
Context (g g' : graph) (gb : garbage) (t t' : trace).
Hypothesis Hwf : wf_graph g.
Hypothesis Hsnap : snapshot g = Some t.
Hypothesis Hmark : mark (length (keep t) + length (scan t)) 0 t = Some t'.
Hypothesis Hsweep :
  sweep t' (scan t') (pointers g) [] = Some (pointers g', gb).

Lemma collect_kept_slot (p : nat) s :
  pointers g !! p = Some s -> kept g (gp_addr s) ->
  pointers g' !! p = Some s.
Proof.
  intros Hp Hkept.
  destruct (trace_spec g t Hwf Hsnap _ t' Hmark) as (Hinfo & _ & Hfate & Hidx).
  eapply sweep_untouched; [exact Hsweep|done|].
  intros j Hj (sj & sr & Hsj & _ & _ & Haddr).
  destruct (Hidx j Hj) as (n & -> & Hn).
  rewrite Hinfo, Nat2N.id in Hsj.
  apply (Hfate n sj Hsj) in Hj. apply Hj. by rewrite Haddr.
Qed.

End collect.

Lemma nonnull_index_address rs r a :
  nonnull_index rs -> r ∈ rs -> begin r <= a -> a <> 0.
Proof.
  unfold nonnull_index. rewrite Forall_forall. intros Hnn Hr Hb.
  specialize (Hnn r Hr). lia.
Qed.


(** ** The snapshot does not leave the arrays *)

Lemma record_slot_total rs t slot (idx_r : nat) m :
  (idx_r < length (rngs t))%nat ->
  exists t', record_slot rs t slot idx_r m = Some t' /\
             length (rngs t') = length (rngs t).
Proof.
  intros [r Hr]%lookup_lt_is_Some_2. unfold record_slot. rewrite Hr. simpl.
  case_bool_decide; eexists; (split; [done|]); simpl;
    by rewrite length_insert.
Qed.

Lemma for_each_total {A S : Type} (I : S -> Prop)
    (body : S -> A -> option S) (l : list A) (s : S) :
  I s ->
  (forall x s0, x ∈ l -> I s0 -> exists s1, body s0 x = Some s1 /\ I s1) ->
  exists s', for_each body l s = Some s' /\ I s'.
Proof.
  revert s. induction l as [|x l IH]; intros s Hs Hstep; simpl.
  - by exists s.
  - destruct (Hstep x s) as (s1 & -> & Hs1); [by left|done|]. simpl.
    apply IH; [done|]. intros y s0 Hy. apply Hstep. by right.
Qed.

Lemma snapshot_total (g : graph) :
  wf_index (ranges g) -> nonnull_index (ranges g) ->
  (forall s, s ∈ pointers g -> is_Some (gp_ptr s) ->
     exists r, r ∈ ranges g /\ contains_incl r (gp_get s)) ->
  is_Some (snapshot g).
Proof.
  intros Hwf Hnn Hin. unfold snapshot.
  set (I := fun t : trace => length (rngs t) = length (ranges g)).
  destruct (for_each_total I (snap_owning (ranges g)) (pointers g)
              (Trace ((fun r => ScanRange (begin r) (end_ r) false false)
                        <$> ranges g) [] [] []))
    as (t1 & -> & Ht1).
  { unfold I. simpl. by rewrite length_fmap. }
  { intros s t0 Hs Ht0. unfold snap_owning.
    destruct (gp_ptr s) as [h|] eqn:Hh; [|by exists t0].
    destruct (Hin s Hs) as (r & [k Hk]%list_elem_of_lookup & Hr);
      [by rewrite Hh|].
    assert (gp_get s <> 0) as Hnull.
    { eapply nonnull_index_address; [done| |by destruct Hr].
      by eapply list_elem_of_lookup_2. }
    pose proof (find_range_iterator_found _ _ _ _ Hwf Hnull Hk Hr).
    destruct (record_slot_total (ranges g) t0 (gp_addr s)
                (find_range_iterator (ranges g) (gp_get s)) true)
      as (t1 & ? & ?); [unfold I in Ht0; lia|].
    exists t1. split; [done|]. unfold I in *. congruence. }
  simpl.
  destruct (for_each_total I (snap_raw (ranges g)) (rawPointers g) t1)
    as (t2 & -> & _); [done| |done].
  intros o t0 Ho Ht0. unfold snap_raw. case_decide as Hend; [by exists t0|].
  pose proof (find_range_iterator_le (ranges g) (rgp_ptr o)).
  destruct (record_slot_total (ranges g) t0 (rgp_addr o)
              (find_range_iterator (ranges g) (rgp_ptr o)) false)
    as (t1' & ? & ?); [unfold I in Ht0; lia|].
  exists t1'. split; [done|]. unfold I in *. congruence.
Qed.

(** X20 (collect returns).  [collect] returns on every well-formed graph
    of non-null allocations whose non-null owning slots refer into ranges:
    no access out of bounds in snapshot, mark or sweep, no observing record
    read as an owning slot, and every loop ends. *)
Lemma collect_total (g : graph) :
  wf_graph g -> nonnull_index (ranges g) ->
  (forall s, s ∈ pointers g -> is_Some (gp_ptr s) ->
     exists r, r ∈ ranges g /\ contains_incl r (gp_get s)) ->
  is_Some (collect g).
Proof.
  intros Hwf Hnn Hin.
  destruct (collecting g) eqn:Hc; [by rewrite collect_busy|].
  unfold collect, collect_impl. rewrite Hc.
  destruct (snapshot_total g (proj1 Hwf) Hnn Hin) as [t Hsnap].
  rewrite Hsnap. simpl.
  destruct (snapshot_spec g t Hwf Hsnap) as (Hinv & Hrec & Hmanaged).
  destruct (mark_total (length (keep t) + length (scan t)) 0 t)
    as (t' & Hmark & _); [by eapply snap_inv_valid|lia..|].
  rewrite Hmark. simpl.
  destruct (trace_spec g t Hwf Hsnap _ t' Hmark) as (Hinfo & Hman & _ & Hidx).
  destruct (sweep_total t' (scan t') (pointers g) []) as [[ptrs ub] ->];
    [|done].
  intros j (n & -> & Hn)%Hidx.
  destruct (lookup_lt_is_Some_2 _ _ Hn) as [sj Hsj].
  assert (range sj < length (rngs t'))%nat as Hk.
  { rewrite <- (length_fmap managed), Hman, length_fmap.
    rewrite (snap_inv_length _ _ Hinv).
    apply (snap_range _ _ Hinv). by eapply list_elem_of_lookup_2. }
  destruct (lookup_lt_is_Some_2 _ _ Hk) as [sr' Hsr'].
  exists sj, sr'. rewrite Hinfo, Nat2N.id. split_and!; [done..|].
  intros Hm'.
  assert (exists sr, rngs t !! range sj = Some sr /\ managed sr = true)
    as (sr & Hsr & Hm).
  { assert ((managed <$> rngs t) !! range sj = Some true) as Hlook.
    { by rewrite <- Hman, list_lookup_fmap, Hsr'; simpl; rewrite Hm'. }
    apply list_lookup_fmap_Some in Hlook as (sr & ? & ?). by exists sr. }
  apply (Hmanaged _ _ Hsr) in Hm as [_ Hnobs].
  assert (has_record g sj) as [(s & (Hs & _) & ->)|(o & Ho & _)].
  { apply Hrec. by eapply list_elem_of_lookup_2. }
  - by apply list_elem_of_fmap_2.
  - destruct Hnobs. by exists o.
Qed.

(** * The claims about collect *)

Lemma live_slot_owner root (g : graph) (s : graph_ptr) :
  live_slot root g s -> s ∈ pointers g /\ is_Some (gp_ptr s).
Proof. by destruct 1. Qed.

Lemma wf_heap3 : wf_index heap3 /\ nonnull_index heap3.
Proof.
  split.
  - cbn. unfold nonempty. simpl. split_and!; try done; try lia.
    + repeat constructor; simpl; lia.
    + repeat constructor; simpl; lia.
  - repeat constructor; simpl; lia.
Qed.

Lemma elem_of_heap3 r :
  r ∈ heap3 ->
  r = MemoryRange 100 120 \/ r = MemoryRange 200 220 \/
  r = MemoryRange 300 320.
Proof.
  unfold heap3. rewrite !elem_of_cons, elem_of_nil. tauto.
Qed.

(** C1 (P3, no false free), as amended.  On a well-formed index with
    fewer than 2^32 registered slots (the record indices are cast to
    [uint32_t]), [collect] leaves every owning slot stored at an address
    the trace keeps as it is: its strong reference is not moved into the
    batch.  The kept addresses are those for which [find_range] finds no
    range and those inside the half-open interval of the range that a
    recorded slot, owning or observing, at a kept address refers to.  In
    particular every non-null owning slot on a path of address containment
    through owning slots from a root owning slot (a non-null owning slot
    for whose storage address [find_range] finds no range) is left as it
    is, and every object whose range is reachable from a root owning slot
    is still strongly referenced, after [collect], by a slot outside the
    batch. *)
Theorem collect_keeps_live (g g' : graph) (gb : garbage) :
  wf_index (ranges g) ->
  N.of_nat (length (pointers g) + length (rawPointers g)) < 2 ^ 32 ->
  collect g = Some (g', gb) ->
  (forall (p : nat) s,
     pointers g !! p = Some s -> kept g (gp_addr s) ->
     pointers g' !! p = Some s) /\
  (forall (p : nat) s,
     pointers g !! p = Some s -> live_slot (is_root g) g s ->
     kept g (gp_addr s) /\ pointers g' !! p = Some s) /\
  (forall k, reachable_range (is_root g) g k ->
     exists s, s ∈ pointers g' /\ owner_of g s k).
Proof.
  intros Hidx Hfit Hcol.
  assert (wf_graph g) as Hwf by done.
  assert (forall (p : nat) s,
            pointers g !! p = Some s -> kept g (gp_addr s) ->
            pointers g' !! p = Some s) as Hkept.
  { destruct (collecting g) eqn:Hc.
    - rewrite collect_busy in Hcol by done. by injection Hcol as <- <-.
    - destruct (collect_Some g g' gb Hc Hcol)
        as (t & t' & Hsnap & Hmark & Hsweep & _).
      intros p s Hp Hk. by eapply collect_kept_slot. }
  assert (forall (p : nat) s,
            pointers g !! p = Some s -> live_slot (is_root g) g s ->
            pointers g' !! p = Some s) as Hslots.
  { intros p s Hp Hlive. apply Hkept; [done|]. by apply live_slot_kept. }
  split_and!; [done| |].
  { intros p s Hp Hlive. split; [by apply live_slot_kept|by apply Hslots]. }
  intros k (s & Hlive & Hk).
  destruct (live_slot_owner _ g s Hlive) as [Hs Hsome].
  pose proof Hs as [p Hp]%list_elem_of_lookup.
  exists s. split; [|done].
  eapply list_elem_of_lookup_2. by apply Hslots.
Qed.

(** The stack slot lies outside every range and keeps A reachable, and the
    batch still holds a strong reference to A, the one moved out of the
    unreachable slot inside B. *)
Lemma shared_object_in_garbage :
  wf_graph shared_graph /\ ~ no_false_free shared_graph.
Proof.
  split; [split; [apply wf_heap3|by vm_compute]|].
  intros Hclaim.
  apply (Hclaim (Graph heap3
                   [GraphPtr 1000 (Some 1) 100; GraphPtr 204 None 300;
                    GraphPtr 304 None 200; GraphPtr 208 None 100] [] false)
                [Some 3; Some 2; Some 1] 0%nat
                (GraphPtr 208 (Some 1) 100) 1).
  - by vm_compute.
  - exists (GraphPtr 1000 (Some 1) 100). split; [|by vm_compute].
    apply live_root; [repeat constructor|by eexists|].
    intros r [->|[->| ->]]%elem_of_heap3; unfold contains; simpl; lia.
  - split_and!; [repeat constructor|by eexists|by vm_compute].
  - done.
  - repeat constructor.
Qed.


Lemma observed_cycle_kept a :
  kept observed_cycle a -> find_range heap3 a = None.
Proof.
  induction 1 as [a Hroot|a si r _ IH Hrec _ _]; [done|].
  destruct Hrec as [(s & (Hs & _) & Ha)|(o & (Ho & _) & Ha)];
    rewrite Ha in IH.
  - simpl in Hs. rewrite !elem_of_cons, elem_of_nil in Hs.
    by destruct Hs as [->|[->|[]]].
  - simpl in Ho. rewrite !elem_of_cons, elem_of_nil in Ho.
    by destruct Ho as [->|[]].
Qed.


(** The leak on the same graph: every owning slot is stored inside an
    allocation with no external root, and the strong reference to A is not
    in the batch. *)
Lemma observed_cycle_leaks :
  (forall s, s ∈ pointers observed_cycle -> stored_unrooted observed_cycle s) /\
  exists g', collect observed_cycle = Some (g', [Some 2]) /\
             Some 1 ∉ [Some 2].
Proof.
  assert (forall k, ~ range_kept observed_cycle k) as Hnone.
  { intros k (si & Hrec & _ & Hkept%observed_cycle_kept).
    destruct Hrec as [(s & (Hs & _) & Ha)|(o & (Ho & _) & Ha)];
      rewrite Ha in Hkept.
    - simpl in Hs. rewrite !elem_of_cons, elem_of_nil in Hs.
      by destruct Hs as [->|[->|[]]].
    - simpl in Ho. rewrite !elem_of_cons, elem_of_nil in Ho.
      by destruct Ho as [->|[]]. }
  split.
  - intros s Hs. simpl in Hs. rewrite !elem_of_cons, elem_of_nil in Hs.
    destruct Hs as [->|[->|[]]].
    + exists 0%nat, (MemoryRange 100 120).
      split_and!; [done|unfold contains; simpl; lia|apply Hnone].
    + exists 1%nat, (MemoryRange 200 220).
      split_and!; [done|unfold contains; simpl; lia|apply Hnone].
  - eexists. split; [by vm_compute|].
    rewrite list_elem_of_singleton. congruence.
Qed.

(** C5 (P6), as amended.  The batch holds only strong references moved out
    of non-null owning slots: when no owning slot refers into the range of
    X, every strong reference in the batch comes from an owning slot that
    refers to another range, and the batch does not contain X. *)
Theorem garbage_only_from_owners (g g' : graph) (gb : garbage) (k : nat) :
  collect g = Some (g', gb) -> (forall s, ~ owner_of g s k) ->
  forall h, Some h ∈ gb ->
    exists s k', owner_of g s k' /\ k' <> k /\ gp_ptr s = Some h.
Proof.
  intros Hcol Hnone h Hh.
  destruct (collecting g) eqn:Hc.
  { rewrite collect_busy in Hcol by done. injection Hcol as <- <-.
    by apply elem_of_nil in Hh. }
  destruct (collect_Some g g' gb Hc Hcol)
    as (t & t' & _ & _ & Hsweep & _).
  apply sweep_from in Hsweep as (more & -> & Hmore).
  destruct (Hmore (Some h) Hh) as [|(s & Hs & Hptr)]; [done|].
  assert (owner_of g s (find_range_iterator (ranges g) (gp_get s))) as Hown.
  { split_and!; [done| |done]. by rewrite Hptr. }
  exists s, (find_range_iterator (ranges g) (gp_get s)).
  split_and!; [done| |done]. intros Heq. apply (Hnone s). by rewrite <- Heq.
Qed.

(** C5, the claim as stated fails: an observing slot on the stack points
    to A and no owning slot refers to A, yet the batch is empty. *)
Lemma observer_only_not_collected :
  wf_graph observer_only /\ ~ observed_only_collected observer_only.
Proof.
  split; [split; [apply wf_heap3|by vm_compute]|].
  intros Hclaim.
  destruct (Hclaim observer_only [] 0%nat) as (h & Hh).
  - by vm_compute.
  - exists (RawGraphPtr 1000 100).
    split_and!; [repeat constructor|by vm_compute|simpl; lia].
  - intros s (Hs & _). simpl in Hs. by apply elem_of_nil in Hs.
  - by apply elem_of_nil in Hh.
Qed.

(** C7 (re-entrancy guard).  Entered while the in-progress flag is set,
    [collect] returns the empty batch at once and leaves the index, the
    registries and every slot as they are. *)
Theorem collect_reentrant (g : graph) :
  collecting g = true -> collect g = Some (g, []).
Proof. apply collect_busy. Qed.

(** C9 (bounds of [rngs[idx_r]]).  For a non-null owning slot whose
    referent address lies in the closed interval of some registered range
    the access is in bounds; and there is a snapshot with a non-null
    owning slot whose referent lies outside every range, for which
    [find_range_iterator] returns the end position, [idx_r] is
    [ranges.size()] and the access is out of bounds. *)
Theorem snapshot_range_access :
  (forall rs t s,
     wf_index rs -> nonnull_index rs -> length (rngs t) = length rs ->
     is_Some (gp_ptr s) ->
     (exists r, r ∈ rs /\ contains_incl r (gp_get s)) ->
     (find_range_iterator rs (gp_get s) < length (rngs t))%nat /\
     is_Some (snap_owning rs t s)) /\
  (exists g s,
     wf_graph g /\ s ∈ pointers g /\ is_Some (gp_ptr s) /\
     (forall r, r ∈ ranges g -> ~ contains_incl r (gp_get s)) /\
     find_range_iterator (ranges g) (gp_get s) = length (ranges g) /\
     snapshot g = None).
Proof.
  split.
  - intros rs t s Hwf Hnn Hlen [h Hh] (r & Hr & Hin).
    pose proof Hr as [k Hk]%list_elem_of_lookup.
    assert (gp_get s <> 0) as Hnull.
    { eapply nonnull_index_address; [done..|by destruct Hin]. }
    pose proof (find_range_iterator_found _ _ _ _ Hwf Hnull Hk Hin) as Hlt.
    rewrite <- Hlen in Hlt. split; [done|].
    unfold snap_owning. rewrite Hh.
    destruct (record_slot_total rs t (gp_addr s)
                (find_range_iterator rs (gp_get s)) true Hlt) as (t' & -> & _).
    done.
  - exists stray_graph, (GraphPtr 1000 (Some 1) 5000). split_and!.
    + split; [apply wf_heap3|by vm_compute].
    + repeat constructor.
    + by eexists.
    + intros r [->|[->| ->]]%elem_of_heap3; unfold contains_incl; simpl; lia.
    + by vm_compute.
    + by vm_compute.
Qed.

(** A storage address at the end of a range and inside no half-open range
    is attributed to that range by [find_range] and is not kept by the
    trace. *)
Lemma boundary_address (g : graph) (R : memory_range) (a : N) :
  wf_index (ranges g) -> R ∈ ranges g -> a = end_ R -> outside_ranges g a ->
  find_range (ranges g) a = Some R /\ ~ kept g a.
Proof.
  intros Hwf HR -> Hout.
  pose proof HR as [k Hk]%list_elem_of_lookup.
  pose proof (wf_index_nonempty _ _ _ Hwf Hk) as Hne.
  unfold nonempty in Hne.
  assert (find_range (ranges g) (end_ R) = Some R) as Hfind.
  { apply find_range_Some.
    destruct (find_range_iterator_closed (ranges g) (end_ R) k R)
      as [Hit|(it & r' & _ & Hr' & _ & Hbeg)];
      [done|lia|done|unfold contains_incl; lia| |].
    - exists k. split_and!; [done| |done]. by eapply lookup_lt_Some.
    - destruct (Hout r'); [by eapply list_elem_of_lookup_2|].
      pose proof (wf_index_nonempty _ _ _ Hwf Hr') as Hne'.
      unfold contains, nonempty in *. lia. }
  split; [done|].
  inversion 1 as [a Hroot|a si r _ _ Hr Hin]; subst.
  - congruence.
  - apply (Hout r); [by eapply list_elem_of_lookup_2|done].
Qed.

(** C10 (slot stored at the end of a range), as amended.  On a well-formed
    index with fewer than 2^32 registered slots, take a registered slot
    that the snapshot records (an owning slot that holds a strong
    reference, or an observing slot whose address [find_range_iterator]
    attributes to a range), stored at an address [a] that is the end of a
    range [R] and lies in the half-open interval of no range.  Then
    [find_range] attributes [a] to [R], the snapshot holds the record of
    the slot, the index of that record is in [scan] and not in [keep], the
    mark phase returns, and whenever it returns the index is still in
    [scan] and not in [keep]. *)
Theorem boundary_slot_stays_in_scan (g : graph) (t : trace)
    (R : memory_range) (a : N) (si : scan_info) :
  wf_index (ranges g) ->
  N.of_nat (length (pointers g) + length (rawPointers g)) < 2 ^ 32 ->
  snapshot g = Some t ->
  R ∈ ranges g -> a = end_ R -> outside_ranges g a ->
  (exists s, s ∈ pointers g /\ is_Some (gp_ptr s) /\ gp_addr s = a /\
     si = ScanInfo a (find_range_iterator (ranges g) (gp_get s))) \/
  (exists o, o ∈ rawPointers g /\
     find_range_iterator (ranges g) (rgp_ptr o) <> length (ranges g) /\
     rgp_addr o = a /\
     si = ScanInfo a (find_range_iterator (ranges g) (rgp_ptr o))) ->
  find_range (ranges g) a = Some R /\
  (exists n : nat, info t !! n = Some si) /\
  (forall n : nat, info t !! n = Some si ->
     N.of_nat n ∈ scan t /\ N.of_nat n ∉ keep t) /\
  is_Some (mark (length (keep t) + length (scan t)) 0 t) /\
  (forall (fuel n : nat) t',
     mark fuel 0 t = Some t' -> info t !! n = Some si ->
     info t' !! n = Some si /\
     N.of_nat n ∈ scan t' /\ N.of_nat n ∉ keep t').
Proof.
  intros Hidx Hfit Hsnap HR Hend Hout Hslot.
  assert (wf_graph g) as Hwf by done.
  destruct (snapshot_spec g t Hwf Hsnap) as (Hinv & Hrec & _).
  destruct (boundary_address g R a Hidx HR Hend Hout) as [Hfind Hnot].
  assert (gp si = a /\ has_record g si) as [Ha Hhas].
  { destruct Hslot as [(s & Hs & Hsome & Hs_a & ->)|(o & Ho & Hit & Ho_a & ->)].
    - split; [done|]. left. exists s. by split.
    - split; [done|]. right. exists o. split; [|done]. split_and!; [done..|].
      pose proof (find_range_iterator_le (ranges g) (rgp_ptr o)). simpl. lia. }
  split_and!.
  - exact Hfind.
  - apply list_elem_of_lookup. by apply Hrec.
  - intros n Hn.
    assert (N.of_nat n ∉ keep t) as Hnk.
    { intros Hin.
      rewrite <- Ha, (snap_keep _ _ Hinv (N.of_nat n) si) in Hfind;
        [done..|by rewrite Nat2N.id]. }
    split; [|done].
    assert (N.of_nat n ∈ keep t ++ scan t) as [|]%elem_of_app; [|done..].
    apply (snap_inv_index _ _ _ Hinv). exists n. split; [done|].
    by eapply lookup_lt_Some.
  - destruct (mark_total (length (keep t) + length (scan t)) 0 t)
      as (t' & Hmark & _); [by eapply snap_inv_valid|lia..|].
    by exists t'.
  - intros fuel n t' Hmark Hn.
    destruct (trace_spec g t Hwf Hsnap _ t' Hmark) as (Hinfo & _ & Hfate & _).
    rewrite <- Ha in Hnot.
    split_and!; [by rewrite Hinfo|by apply (Hfate n si Hn)|].
    intros Hin. by apply (Hfate n si Hn) in Hin.
Qed.

(** C10, the claim as stated fails: a registered owning slot that holds no
    strong reference and a registered observing slot that points into no
    range get no scan record, so a slot of either kind stored at the end of
    a range is not classified at all. *)
Lemma unrecorded_boundary_slot :
  wf_graph unrecorded_boundary /\ ~ boundary_interior unrecorded_boundary.
Proof.
  split; [split; [apply wf_heap3|by vm_compute]|].
  intros Hclaim.
  destruct (Hclaim (Trace [ScanRange 100 120 false false;
                           ScanRange 200 220 false false;
                           ScanRange 300 320 false false] [] [] [])
                   120 (MemoryRange 100 120))
    as (n & si & Hn & _).
  - by vm_compute.
  - left. exists (GraphPtr 120 None 0). split; [repeat constructor|done].
  - repeat constructor.
  - done.
  - intros r [->|[->| ->]]%elem_of_heap3; unfold contains; simpl; lia.
  - simpl in Hn. by rewrite lookup_nil in Hn.
Qed.

(** The consequence for [collect]: the slot at the end of A lies outside
    every range and holds the only strong reference to B, and B is handed
    to the batch although the slot is not part of any allocation. *)
Lemma boundary_slot_swept :
  wf_graph boundary_graph /\ outside_ranges boundary_graph 120 /\
  (exists g', collect boundary_graph = Some (g', [Some 2])) /\
  ~ no_false_free boundary_graph.
Proof.
  assert (outside_ranges boundary_graph 120) as Hout.
  { intros r [->|[->| ->]]%elem_of_heap3; unfold contains; simpl; lia. }
  split_and!; [split; [apply wf_heap3|by vm_compute]|done| |].
  - eexists. by vm_compute.
  - intros Hclaim.
    apply (Hclaim (Graph heap3
                     [GraphPtr 120 None 200; GraphPtr 2000 (Some 1) 100]
                     [] false)
                  [Some 2] 1%nat (GraphPtr 120 (Some 2) 200) 2).
    + by vm_compute.
    + exists (GraphPtr 120 (Some 2) 200). split; [|by vm_compute].
      apply live_root; [repeat constructor|by eexists|done].
    + split_and!; [repeat constructor|by eexists|by vm_compute].
    + done.
    + repeat constructor.
Qed.

(** C1, the claim as stated fails twice.  By design, the batch holds the
    strong references of all unreachable owning slots, also of one that
    co-owns a reachable object ([shared_graph]).  And the slot stored at
    the end of a range lies outside every range, yet the root test with
    the inclusive upper bound takes it for interior and its referent is
    handed to the batch ([boundary_graph]). *)
Lemma no_false_free_fails :
  (wf_graph shared_graph /\ ~ no_false_free shared_graph) /\
  (wf_graph boundary_graph /\ ~ no_false_free boundary_graph).
Proof.
  split; [apply shared_object_in_garbage|].
  destruct boundary_slot_swept as (? & _ & _ & ?). by split.
Qed.

(** * The theorems at concrete inputs *)

Lemma rooted_cycle_snapshot : snapshot rooted_cycle = Some rooted_cycle_trace.
Proof. by vm_compute. Qed.



(** C1 at [rooted_cycle]: the slot stored inside A, which the stack slot
    owns, is one containment step away from the root and is left as it
    is. *)
Lemma collect_keeps_live_witness :
  collect rooted_cycle = Some (rooted_cycle, []) /\
  kept rooted_cycle 104 /\
  pointers rooted_cycle !! 1%nat = Some (GraphPtr 104 (Some 2) 200).
Proof.
  assert (wf_index (ranges rooted_cycle)) as Hidx by apply wf_heap3.
  assert (N.of_nat (length (pointers rooted_cycle) +
                    length (rawPointers rooted_cycle)) < 2 ^ 32) as Hfit
    by (vm_compute; reflexivity).
  assert (collect rooted_cycle = Some (rooted_cycle, [])) as Hcol
    by (vm_compute; reflexivity).
  destruct (collect_keeps_live _ _ _ Hidx Hfit Hcol) as (_ & Hlive & _).
  split; [exact Hcol|].
  apply (Hlive 1%nat (GraphPtr 104 (Some 2) 200)); [reflexivity|].
  apply (live_inside _ _ _ (GraphPtr 1000 (Some 1) 100)
           (MemoryRange 100 120)).
  - apply live_root; [repeat constructor|by eexists|].
    unfold is_root. vm_compute; reflexivity.
  - vm_compute; reflexivity.
  - repeat constructor.
  - by eexists.
  - unfold contains. simpl. lia.
Defined.


(** C3 at two adjacent ranges and their shared boundary. *)
Lemma find_range_containment_witness :
  MemoryRange 32 48 ∈ [MemoryRange 16 32; MemoryRange 32 48] /\
  contains_incl (MemoryRange 32 48) 32 /\
  find_range [MemoryRange 16 32; MemoryRange 32 48] 0 = None.
Proof.
  assert (wf_index [MemoryRange 16 32; MemoryRange 32 48]) as Hwf.
  { cbn. unfold nonempty. simpl. split_and!; try done; try lia.
    repeat constructor; simpl; lia. }
  destruct (find_range_containment _ 32 Hwf) as (Hiff & _).
  destruct (find_range_containment _ 0 Hwf) as (_ & Hnull & _).
  destruct (proj1 (Hiff ltac:(lia) (MemoryRange 32 48)))
    as (Hin & Hclosed & _); [vm_compute; reflexivity|].
  split_and!; [exact Hin|exact Hclosed|by apply Hnull].
Defined.

(** C4 at [heap3]: removing B by its [begin]. *)
Lemma remove_range_spec_witness :
  remove_range heap3 200 = Some [MemoryRange 100 120; MemoryRange 300 320].
Proof.
  apply (proj1 (remove_range_spec heap3 200 (proj1 wf_heap3))
           1%nat (MemoryRange 200 220)); [lia|reflexivity..].
Defined.

(** C5 at [cycle_graph] and the range of C, which no slot refers to. *)
Lemma garbage_only_from_owners_witness :
  exists s k', owner_of cycle_graph s k' /\ k' <> 2%nat /\ gp_ptr s = Some 1.
Proof.
  eapply (garbage_only_from_owners cycle_graph _ [Some 2; Some 1] 2).
  - vm_compute; reflexivity.
  - intros s (Hs & _ & Hk). simpl in Hs.
    rewrite !elem_of_cons, elem_of_nil in Hs.
    destruct Hs as [->|[->|[]]]; vm_compute in Hk; discriminate.
  - repeat constructor.
Defined.

(** C6 at the history that adds B, A and C. *)
Lemma index_sorted_disjoint_witness :
  sorted_by_begin heap3 /\ pairwise_disjoint heap3.
Proof.
  apply index_sorted_disjoint.
  change heap3
    with (add_range (add_range (add_range [] 200 20) 100 20) 300 20).
  apply index_add; [apply index_add; [apply index_add| |]| |].
  - apply index_empty.
  - lia.
  - constructor.
  - lia.
  - repeat constructor; unfold disjoint; simpl; lia.
  - lia.
  - repeat constructor; unfold disjoint; simpl; lia.
Defined.

(** C7 at a graph whose in-progress flag is set. *)
Lemma collect_reentrant_witness :
  collect (Graph heap3 [GraphPtr 1000 (Some 1) 100] [] true)
  = Some (Graph heap3 [GraphPtr 1000 (Some 1) 100] [] true, []).
Proof. apply collect_reentrant. reflexivity. Defined.

(** C8 at the snapshot of [rooted_cycle]. *)
Lemma mark_terminates_witness :
  exists t',
    mark 3 0 rooted_cycle_trace = Some t' /\
    (length (keep t') + length (scan t') = 3)%nat.
Proof.
  destruct (mark_terminates rooted_cycle_trace 0 3) as (t' & Hmark & Hlen & _).
  - split.
    + intros j Hj. simpl in Hj. rewrite !elem_of_cons, elem_of_nil in Hj.
      destruct Hj as [->|[->|[->|[]]]]; by eexists.
    + intros si Hsi. simpl in Hsi. rewrite !elem_of_cons, elem_of_nil in Hsi.
      destruct Hsi as [->|[->|[->|[]]]]; simpl; lia.
  - simpl. lia.
  - simpl. lia.
  - exists t'. split; [exact Hmark|exact Hlen].
Defined.

(** C9 at [heap3] and a slot that refers to B. *)
Lemma snapshot_range_access_witness :
  is_Some (snap_owning heap3 rooted_cycle_trace (GraphPtr 104 (Some 2) 200)).
Proof.
  eapply (proj1 snapshot_range_access heap3).
  - apply wf_heap3.
  - apply wf_heap3.
  - reflexivity.
  - by eexists.
  - exists (MemoryRange 200 220). split; [repeat constructor|].
    unfold contains_incl. simpl. lia.
Defined.

(** C10 at [boundary_observed]: the record of the owning slot stored at
    the end of A and the record of the observing slot stored at the end of
    B. *)
Lemma boundary_slot_stays_in_scan_witness :
  snapshot boundary_observed = Some boundary_trace /\
  mark 3 0 boundary_trace = Some boundary_marked /\
  find_range heap3 120 = Some (MemoryRange 100 120) /\
  find_range heap3 220 = Some (MemoryRange 200 220) /\
  1 ∈ scan boundary_marked /\ 2 ∈ scan boundary_marked.
Proof.
  assert (wf_index (ranges boundary_observed)) as Hidx by apply wf_heap3.
  assert (N.of_nat (length (pointers boundary_observed) +
                    length (rawPointers boundary_observed)) < 2 ^ 32) as Hfit
    by (vm_compute; reflexivity).
  assert (snapshot boundary_observed = Some boundary_trace) as Hsnap
    by (vm_compute; reflexivity).
  assert (mark 3 0 boundary_trace = Some boundary_marked) as Hmark
    by (vm_compute; reflexivity).
  destruct (boundary_slot_stays_in_scan boundary_observed boundary_trace
              (MemoryRange 100 120) 120 (ScanInfo 120 1) Hidx Hfit Hsnap)
    as (Hfind1 & _ & _ & _ & Hstay1).
  - repeat constructor.
  - reflexivity.
  - intros r [->|[->| ->]]%elem_of_heap3; unfold contains; simpl; lia.
  - left. exists (GraphPtr 120 (Some 2) 200).
    split_and!; [repeat constructor|by eexists|reflexivity|].
    vm_compute; reflexivity.
  - destruct (boundary_slot_stays_in_scan boundary_observed boundary_trace
                (MemoryRange 200 220) 220 (ScanInfo 220 2) Hidx Hfit Hsnap)
      as (Hfind2 & _ & _ & _ & Hstay2).
    + repeat constructor.
    + reflexivity.
    + intros r [->|[->| ->]]%elem_of_heap3; unfold contains; simpl; lia.
    + right. exists (RawGraphPtr 220 300).
      split_and!; [repeat constructor|vm_compute; lia|reflexivity|].
      vm_compute; reflexivity.
    + destruct (Hstay1 3%nat 1%nat boundary_marked Hmark eq_refl)
        as (_ & Hs1 & _).
      destruct (Hstay2 3%nat 2%nat boundary_marked Hmark eq_refl)
        as (_ & Hs2 & _).
      split_and!; [exact Hsnap|exact Hmark|exact Hfind1|exact Hfind2|
                   exact Hs1|exact Hs2].
Defined.

(** * Further properties of the index *)

Lemma find_range_inside_lookup rs a (k : nat) r :
  wf_index rs -> rs !! k = Some r -> contains r a -> a <> 0 ->
  find_range_iterator rs a = k.
Proof.
  intros Hwf Hk [Hb He] Ha.
  destruct (find_range_iterator_closed rs a k r)
    as [Hit|(it & r' & _ & Hr' & Hlt & Hbeg)];
    [done..|unfold contains_incl; lia|done|].
  pose proof (wf_index_lookup _ _ _ _ _ Hwf Hk Hr' Hlt). lia.
Qed.

Lemma find_range_inside_elem rs a r :
  wf_index rs -> r ∈ rs -> contains r a -> a <> 0 ->
  find_range rs a = Some r.
Proof.
  intros Hwf [k Hk]%list_elem_of_lookup Hin Ha.
  apply find_range_Some. exists k.
  split_and!; [by eapply find_range_inside_lookup| |done].
  by eapply lookup_lt_Some.
Qed.

Lemma wf_index_distinct rs (i j : nat) r :
  wf_index rs -> rs !! i = Some r -> rs !! j = Some r -> i = j.
Proof.
  intros Hwf Hi Hj.
  destruct (decide (i = j)) as [|Hne]; [done|].
  pose proof (wf_index_sorted _ Hwf) as Hs.
  destruct (decide (i < j)%nat).
  - pose proof (Hs i j r r Hi Hj). lia.
  - pose proof (Hs j i r r Hj Hi). lia.
Qed.

Lemma add_range_lookup rs p size :
  add_range rs p size !! upper_bound rs p = Some (MemoryRange p (p + size)).
Proof.
  unfold add_range. cbv zeta. apply list_lookup_middle.
  rewrite length_take_le; [done|]. apply upper_bound_le.
Qed.

Lemma add_range_disjoint rs p size r :
  Forall (disjoint r) rs -> disjoint r (MemoryRange p (p + size)) ->
  Forall (disjoint r) (add_range rs p size).
Proof.
  rewrite !Forall_forall. intros Hall Hnew r' [->|Hr']%add_range_elem_of;
    [done|by apply Hall].
Qed.

(** Two well-formed indices with the same ranges are the same list. *)
Lemma wf_index_ext rs1 rs2 :
  wf_index rs1 -> wf_index rs2 -> (forall r, r ∈ rs1 <-> r ∈ rs2) ->
  rs1 = rs2.
Proof.
  revert rs2. induction rs1 as [|r1 rs1 IH]; intros [|r2 rs2] Hwf1 Hwf2 Heq.
  - done.
  - exfalso. eapply (not_elem_of_nil r2), Heq. by left.
  - exfalso. eapply (not_elem_of_nil r1), Heq. by left.
  - destruct Hwf1 as (Hne1 & Hall1 & Hwf1), Hwf2 as (Hne2 & Hall2 & Hwf2).
    rewrite Forall_forall in Hall1, Hall2. unfold nonempty in *.
    assert (r1 = r2) as ->.
    { pose proof (proj1 (Heq r1) ltac:(by left)) as [|Hin1]%elem_of_cons;
        [done|].
      pose proof (proj2 (Heq r2) ltac:(by left)) as [|Hin2]%elem_of_cons;
        [done|].
      specialize (Hall1 _ Hin2). specialize (Hall2 _ Hin1). lia. }
    f_equal. apply IH; [done..|]. intros r. split; intros Hr.
    + pose proof (proj1 (Heq r) ltac:(by right)) as [->|]%elem_of_cons;
        [|done].
      specialize (Hall1 _ Hr). lia.
    + pose proof (proj2 (Heq r) ltac:(by right)) as [->|]%elem_of_cons;
        [|done].
      specialize (Hall2 _ Hr). lia.
Qed.

(** X1 (interior pointers).  In a well-formed index every non-null address
    inside the half-open interval of a present range is attributed to that
    range, by [find_range] and by [find_range_iterator]. *)
Theorem find_range_inside (rs : list memory_range) (r : memory_range) (a : N) :
  wf_index rs -> r ∈ rs -> contains r a -> a <> 0 ->
  find_range rs a = Some r /\
  rs !! find_range_iterator rs a = Some r.
Proof.
  intros Hwf Hr Hin Ha. split; [by apply find_range_inside_elem|].
  apply list_elem_of_lookup in Hr as [k Hk].
  by rewrite (find_range_inside_lookup rs a k r).
Qed.

(** X2 (one past the end).  In a well-formed index the end address of a
    range is attributed to the range that begins there, when there is one,
    and to the range it ends otherwise. *)
Theorem find_range_at_end (rs : list memory_range) (r : memory_range) :
  wf_index rs -> r ∈ rs ->
  (forall r', r' ∈ rs -> begin r' = end_ r ->
     find_range rs (end_ r) = Some r') /\
  ((forall r', r' ∈ rs -> begin r' <> end_ r) ->
     find_range rs (end_ r) = Some r).
Proof.
  intros Hwf Hr. pose proof Hr as [k Hk]%list_elem_of_lookup.
  pose proof (wf_index_nonempty _ _ _ Hwf Hk) as Hne. unfold nonempty in Hne.
  split.
  - intros r' Hr' Hbeg. apply find_range_inside_elem; [done..| |lia].
    pose proof Hr' as [j Hj]%list_elem_of_lookup.
    pose proof (wf_index_nonempty _ _ _ Hwf Hj) as Hne'.
    unfold contains, nonempty in *. lia.
  - intros Hnone. apply find_range_Some.
    destruct (find_range_iterator_closed rs (end_ r) k r)
      as [Hit|(it & r' & _ & Hr' & _ & Hbeg)];
      [done|lia|done|unfold contains_incl; lia| |].
    + exists k. split_and!; [done| |done]. by eapply lookup_lt_Some.
    + destruct (Hnone r'); [by eapply list_elem_of_lookup_2|done].
Qed.

(** X3 (insert, then look up).  After [add_range(p, size)] of a non-null,
    non-empty range disjoint from those present, every address of the new
    range is attributed to it, and the addresses inside the old ranges are
    attributed as before. *)
Theorem add_range_find_range (rs : list memory_range) (p size : N) :
  wf_index rs -> 0 < size -> p <> 0 ->
  Forall (disjoint (MemoryRange p (p + size))) rs ->
  (forall a, p <= a < p + size ->
     find_range (add_range rs p size) a = Some (MemoryRange p (p + size))) /\
  (forall r a, r ∈ rs -> contains r a -> a <> 0 ->
     find_range (add_range rs p size) a = Some r /\
     find_range rs a = Some r).
Proof.
  intros Hwf Hsize Hp Hdis.
  pose proof (add_range_wf rs p size Hwf Hsize Hdis) as Hwf'.
  split.
  - intros a Ha. apply find_range_inside_elem; [done| |done|lia].
    apply add_range_elem_of. by left.
  - intros r a Hr Hin Ha. split; apply find_range_inside_elem; try done.
    apply add_range_elem_of. by right.
Qed.

(** X4 (insert, then remove).  [remove_range(p)] right after
    [add_range(p, size)] gives back the index as it was. *)
Theorem add_remove_round_trip (rs : list memory_range) (p size : N) :
  wf_index rs -> 0 < size -> p <> 0 ->
  Forall (disjoint (MemoryRange p (p + size))) rs ->
  remove_range (add_range rs p size) p = Some rs.
Proof.
  intros Hwf Hsize Hp Hdis.
  pose proof (add_range_wf rs p size Hwf Hsize Hdis) as Hwf'.
  pose proof (add_range_lookup rs p size) as Hnew.
  pose proof (upper_bound_le rs p) as Hle.
  unfold remove_range.
  rewrite (find_range_inside_lookup _ p (upper_bound rs p) _ Hwf' Hnew);
    [|unfold contains; simpl; lia|done].
  case_decide as Hend.
  { apply lookup_lt_Some in Hnew. lia. }
  f_equal. unfold add_range. cbv zeta.
  rewrite <- (length_take_le rs (upper_bound rs p)) at 1 by done.
  by rewrite delete_middle, take_drop.
Qed.

(** X5 (remove, then look up).  [remove_range] of the [begin] of a present
    range leaves a well-formed index with exactly the other ranges; the
    addresses strictly inside the removed range are found in no range, and
    the addresses inside the other ranges are attributed as before. *)
Theorem remove_range_forgets (rs : list memory_range) (r : memory_range) :
  wf_index rs -> r ∈ rs -> begin r <> 0 ->
  exists rs',
    remove_range rs (begin r) = Some rs' /\ wf_index rs' /\
    length rs = S (length rs') /\
    (forall r', r' ∈ rs' <-> r' ∈ rs /\ r' <> r) /\
    (forall a, begin r < a < end_ r -> find_range rs' a = None) /\
    (forall r' a, r' ∈ rs' -> contains r' a -> a <> 0 ->
       find_range rs' a = Some r').
Proof.
  intros Hwf [k Hk]%list_elem_of_lookup Hp.
  pose proof (wf_index_nonempty _ _ _ Hwf Hk) as Hne. unfold nonempty in Hne.
  pose proof (lookup_lt_Some _ _ _ Hk) as Hlt.
  exists (delete k rs).
  assert (remove_range rs (begin r) = Some (delete k rs)) as Hrm.
  { unfold remove_range.
    rewrite (find_range_inside_lookup rs _ k r);
      [|done..|unfold contains; lia|done].
    case_decide; [lia|done]. }
  pose proof (delete_wf rs k Hwf) as Hwf'.
  assert (forall r', r' ∈ delete k rs <-> r' ∈ rs /\ r' <> r) as Hmem.
  { intros r'. split.
    - intros [j Hj]%list_elem_of_lookup.
      destruct (decide (j < k)%nat).
      + rewrite list_lookup_delete_lt in Hj by done.
        split; [by eapply list_elem_of_lookup_2|]. intros ->.
        pose proof (wf_index_distinct _ _ _ _ Hwf Hj Hk). lia.
      + rewrite list_lookup_delete_ge in Hj by lia.
        split; [by eapply list_elem_of_lookup_2|]. intros ->.
        pose proof (wf_index_distinct _ _ _ _ Hwf Hj Hk). lia.
    - intros [[j Hj]%list_elem_of_lookup Hne'].
      assert (j <> k) by (intros ->; congruence).
      destruct (decide (j < k)%nat).
      + apply (list_elem_of_lookup_2 _ j). by rewrite list_lookup_delete_lt.
      + apply (list_elem_of_lookup_2 _ (pred j)).
        rewrite list_lookup_delete_ge by lia.
        by replace (S (pred j)) with j by lia. }
  split_and!; [done..| | | |].
  - rewrite length_delete by done. lia.
  - done.
  - intros a Ha. apply find_range_None_iff; [done|]. right.
    intros r' [[j Hj]%list_elem_of_lookup Hne']%Hmem [Hb He].
    assert (j <> k) by (intros ->; congruence).
    destruct (wf_index_disjoint _ Hwf j k r' r Hj Hk); lia.
  - intros r' a Hr' Hin Ha. by apply find_range_inside_elem.
Qed.

(** X6 (order of insertion).  Two disjoint ranges added in either order
    give the same index: the index depends on the ranges present, not on
    the order of the [add_range] calls. *)
Theorem add_range_comm (rs : list memory_range) (p1 size1 p2 size2 : N) :
  wf_index rs -> 0 < size1 -> 0 < size2 ->
  Forall (disjoint (MemoryRange p1 (p1 + size1))) rs ->
  Forall (disjoint (MemoryRange p2 (p2 + size2))) rs ->
  disjoint (MemoryRange p1 (p1 + size1)) (MemoryRange p2 (p2 + size2)) ->
  add_range (add_range rs p1 size1) p2 size2
  = add_range (add_range rs p2 size2) p1 size1.
Proof.
  intros Hwf Hs1 Hs2 Hd1 Hd2 Hd12.
  apply wf_index_ext.
  - apply add_range_wf; [by apply add_range_wf|done|].
    apply add_range_disjoint; [done|]. unfold disjoint in *. simpl in *. lia.
  - apply add_range_wf; [by apply add_range_wf|done|].
    by apply add_range_disjoint.
  - intros r. rewrite !add_range_elem_of. tauto.
Qed.

(** * Statistics *)

Lemma to_int_small (n : Z) : (0 <= n < 2 ^ 31)%Z -> to_int n = n.
Proof. intros Hn. unfold to_int. rewrite Z.mod_small; lia. Qed.

Lemma add_range_length rs p size :
  length (add_range rs p size) = S (length rs).
Proof.
  unfold add_range. cbv zeta. rewrite length_app. simpl.
  rewrite length_take, length_drop. pose proof (upper_bound_le rs p). lia.
Qed.

Lemma remove_range_length rs p rs' :
  remove_range rs p = Some rs' -> length rs = S (length rs').
Proof.
  unfold remove_range. case_decide as Hend; [done|]. intros [= <-].
  pose proof (find_range_iterator_le rs p).
  rewrite length_delete; [lia|]. apply lookup_lt_is_Some_2. lia.
Qed.

Lemma total_bytes_cons r rs :
  total_bytes (r :: rs) = (range_bytes r + total_bytes rs)%Z.
Proof. done. Qed.

Lemma total_bytes_app rs1 rs2 :
  total_bytes (rs1 ++ rs2) = (total_bytes rs1 + total_bytes rs2)%Z.
Proof.
  induction rs1 as [|r rs1 IH]; [done|].
  rewrite <- app_comm_cons, !total_bytes_cons, IH. lia.
Qed.

Lemma total_bytes_add_range rs p size :
  total_bytes (add_range rs p size) = (total_bytes rs + Z.of_N size)%Z.
Proof.
  unfold add_range. cbv zeta.
  assert (total_bytes rs
          = (total_bytes (take (upper_bound rs p) rs)
             + total_bytes (drop (upper_bound rs p) rs))%Z) as ->
    by (by rewrite <- total_bytes_app, take_drop).
  rewrite total_bytes_app, total_bytes_cons.
  unfold range_bytes. simpl. lia.
Qed.

Lemma total_bytes_delete rs (k : nat) r :
  rs !! k = Some r ->
  total_bytes rs = (total_bytes (delete k rs) + range_bytes r)%Z.
Proof.
  intros Hk.
  assert (length (take k rs) = k) as Hlen.
  { rewrite length_take_le; [done|]. apply lookup_lt_Some in Hk. lia. }
  assert (delete k rs = take k rs ++ drop (S k) rs) as ->.
  { rewrite <- (take_drop_middle rs k r Hk) at 1.
    by rewrite <- Hlen at 1; rewrite delete_middle. }
  rewrite <- (take_drop_middle rs k r Hk) at 1.
  rewrite !total_bytes_app, total_bytes_cons. lia.
Qed.

Lemma allocated_bytes_fold rs (init : Z) :
  (0 <= init < 2 ^ 64)%Z ->
  fold_left (fun total r => size_t (total + range_bytes r)) rs init
  = size_t (init + total_bytes rs).
Proof.
  revert init. induction rs as [|r rs IH]; intros init Hinit;
    cbn [fold_left].
  - unfold size_t, total_bytes. simpl. rewrite Z.add_0_r, Z.mod_small; lia.
  - rewrite IH by (unfold size_t; apply Z.mod_pos_bound; lia).
    rewrite total_bytes_cons. unfold size_t.
    rewrite Z.add_mod_idemp_l by lia. f_equal. lia.
Qed.

Lemma allocated_bytes_eq g :
  allocated_bytes g = size_t (total_bytes (ranges g)).
Proof. unfold allocated_bytes. by rewrite allocated_bytes_fold by lia. Qed.

Lemma size_t_add_l (a b : Z) : size_t (size_t a + b) = size_t (a + b).
Proof. unfold size_t. by rewrite Z.add_mod_idemp_l by lia. Qed.

Lemma wf_index_total_bytes rs :
  wf_index rs -> (Z.of_nat (length rs) <= total_bytes rs)%Z.
Proof.
  induction rs as [|r rs IH]; [done|].
  intros (Hne & _ & Hwf). specialize (IH Hwf).
  rewrite total_bytes_cons. unfold nonempty in Hne. unfold range_bytes.
  simpl length. lia.
Qed.

(** X7 (object count).  While fewer than [2^31 - 1] ranges are registered,
    [allocated_objects()] is the number of ranges; [add_range] raises it by
    one and a [remove_range] that passes its assertion lowers it by one. *)
Theorem allocated_objects_counts (g : graph) :
  (Z.of_nat (length (ranges g)) < 2 ^ 31 - 1)%Z ->
  allocated_objects g = Z.of_nat (length (ranges g)) /\
  (forall p size,
     allocated_objects (graph_add_range g p size)
     = (allocated_objects g + 1)%Z) /\
  (forall p g', graph_remove_range g p = Some g' ->
     allocated_objects g' = (allocated_objects g - 1)%Z).
Proof.
  intros Hfit. unfold allocated_objects. split_and!.
  - apply to_int_small. lia.
  - intros p size. simpl. rewrite add_range_length.
    rewrite !to_int_small; lia.
  - intros p g'. unfold graph_remove_range.
    destruct (remove_range (ranges g) p) as [rs|] eqn:Hrm; simpl; [|done].
    intros [= <-]. simpl. apply remove_range_length in Hrm.
    rewrite !to_int_small; lia.
Qed.

(** X8 (byte count).  [allocated_bytes()] is the sum of the range sizes
    reduced to 64 bits, and in a well-formed index that sum is at least the
    number of ranges, every range holding at least one byte. *)
Theorem allocated_bytes_total (g : graph) :
  allocated_bytes g = (total_bytes (ranges g) mod 2 ^ 64)%Z /\
  (wf_index (ranges g) ->
   (Z.of_nat (length (ranges g)) <= total_bytes (ranges g))%Z).
Proof.
  split; [apply allocated_bytes_eq|apply wf_index_total_bytes].
Qed.

(** X9 (byte count along the index operations).  [add_range(p, size)]
    raises [allocated_bytes()] by [size], and a [remove_range] that passes
    its assertion lowers it by the size of the range it erases, both in
    64-bit arithmetic. *)
Theorem allocated_bytes_steps (g : graph) (p : N) :
  (forall size,
     allocated_bytes (graph_add_range g p size)
     = size_t (allocated_bytes g + Z.of_N size)) /\
  (forall g', graph_remove_range g p = Some g' ->
     exists r, r ∈ ranges g /\ contains_incl r p /\
       allocated_bytes g = size_t (allocated_bytes g' + range_bytes r)).
Proof.
  split.
  - intros size. rewrite !allocated_bytes_eq. simpl.
    by rewrite total_bytes_add_range, size_t_add_l.
  - intros g'. unfold graph_remove_range.
    destruct (remove_range (ranges g) p) as [rs|] eqn:Hrm; simpl; [|done].
    intros [= <-]. unfold remove_range in Hrm.
    case_decide as Hend; [done|]. injection Hrm as <-.
    destruct (find_range_iterator_cases (ranges g) p)
      as [|(it & r & Hit & _ & Hr & Hin & _)]; [done|].
    exists r. split_and!; [by eapply list_elem_of_lookup_2|done|].
    rewrite !allocated_bytes_eq. simpl. rewrite size_t_add_l, Hit.
    by rewrite (total_bytes_delete _ _ _ Hr).
Qed.

(** * Registries *)

Lemma filter_all {A : Type} (P : A -> Prop) `{!forall x, Decision (P x)}
    (l : list A) :
  (forall x, x ∈ l -> P x) -> filter P l = l.
Proof.
  induction l as [|x l IH]; intros Hall; [done|].
  rewrite filter_cons_True by (apply Hall; by left).
  f_equal. apply IH. intros y Hy. apply Hall. by right.
Qed.

(** X10 (attach, then detach).  Detaching a slot right after attaching it
    at a storage address that no registered slot of its kind has gives back
    the graph as it was, for owning and for observing slots. *)
Theorem detach_attach (g : graph) :
  (forall s, (forall s', s' ∈ pointers g -> gp_addr s' <> gp_addr s) ->
     detach (attach g s) (gp_addr s) = g) /\
  (forall o, (forall o', o' ∈ rawPointers g -> rgp_addr o' <> rgp_addr o) ->
     detach_raw (attach_raw g o) (rgp_addr o) = g).
Proof.
  destruct g as [rs ps raws c]. unfold detach, attach, detach_raw, attach_raw.
  simpl. split.
  - intros s Hfresh. f_equal. rewrite filter_app, filter_all by done.
    rewrite filter_cons_False by (by intros []). by rewrite app_nil_r.
  - intros o Hfresh. f_equal. rewrite filter_app, filter_all by done.
    rewrite filter_cons_False by (by intros []). by rewrite app_nil_r.
Qed.

(** * Further properties of collect *)

Lemma for_each_snoc {A S : Type} (body : S -> A -> option S) (l : list A)
    (x : A) (s : S) :
  for_each body (l ++ [x]) s = (s' ← for_each body l s; body s' x).
Proof.
  revert s. induction l as [|y l IH]; intros s; simpl.
  - by destruct (body s x).
  - destruct (body s y) as [s1|]; simpl; [apply IH|done].
Qed.

Lemma sweep_app t todo ptrs acc ptrs' gb extra :
  sweep t todo ptrs acc = Some (ptrs', gb) ->
  sweep t todo (ptrs ++ extra) acc = Some (ptrs' ++ extra, gb).
Proof.
  revert ptrs acc. induction todo as [|idx todo IH]; intros ptrs acc; simpl.
  - by intros [= <- <-].
  - destruct (info t !! N.to_nat idx) as [si|]; simpl; [|done].
    destruct (rngs t !! range si) as [r|]; simpl; [|done].
    destruct (managed r); [|by apply IH].
    destruct (list_find _ ptrs) as [[k mptr]|] eqn:Hfind; simpl; [|done].
    rewrite (list_find_app_l _ _ _ _ _ Hfind). simpl.
    apply list_find_Some in Hfind as (Hk%lookup_lt_Some & _ & _).
    rewrite insert_app_l by done. apply IH.
Qed.

Lemma sweep_shape t todo ptrs acc ptrs' gb :
  sweep t todo ptrs acc = Some (ptrs', gb) ->
  length ptrs' = length ptrs /\
  forall (p : nat) s s',
    ptrs !! p = Some s -> ptrs' !! p = Some s' ->
    s' = s \/ s' = moved_from s.
Proof.
  revert ptrs acc. induction todo as [|idx todo IH]; intros ptrs acc; simpl.
  - intros [= <- <-]. split; [done|]. intros p s s' Hs Hs'. left. congruence.
  - destruct (info t !! N.to_nat idx) as [si|]; simpl; [|done].
    destruct (rngs t !! range si) as [r|]; simpl; [|done].
    destruct (managed r); [|by apply IH].
    destruct (list_find _ ptrs) as [[k mptr]|] eqn:Hfind; simpl; [|done].
    intros [Hlen Hshape]%IH. rewrite length_insert in Hlen.
    split; [done|]. intros p s s' Hs Hs'.
    apply list_find_Some in Hfind as (Hk & _ & _).
    destruct (decide (p = k)) as [->|Hne].
    + assert (s = mptr) as -> by congruence. right.
      destruct (Hshape k (moved_from mptr) s') as [->| ->]; try done.
      apply list_lookup_insert_eq. by eapply lookup_lt_Some.
    + apply (Hshape p s s'); [|done]. by rewrite list_lookup_insert_ne.
Qed.

(** X11 (null owning slots).  A registered owning slot that holds no strong
    reference gets no scan record: attaching one changes neither the batch
    that [collect] returns nor what [collect] does to the other slots. *)
Theorem collect_ignores_null_slot (g g' : graph) (gb : garbage)
    (s : graph_ptr) :
  gp_ptr s = None -> collect g = Some (g', gb) ->
  collect (attach g s) = Some (attach g' s, gb).
Proof.
  intros Hnull Hcol.
  destruct (collecting g) eqn:Hc.
  { rewrite collect_busy in Hcol by done. injection Hcol as <- <-.
    by apply collect_busy. }
  destruct (collect_Some g g' gb Hc Hcol)
    as (t & t' & Hsnap & Hmark & Hsweep & Hrs & Hraw & Hc').
  assert (snapshot (attach g s) = Some t) as Hsnap'.
  { unfold snapshot in *. simpl. rewrite for_each_snoc.
    destruct (for_each (snap_owning (ranges g)) (pointers g) _) as [t1|];
      simpl in *; [|done].
    unfold snap_owning at 1. by rewrite Hnull. }
  unfold collect, collect_impl. simpl. rewrite Hc, Hsnap'. simpl.
  rewrite Hmark. simpl.
  rewrite (sweep_app _ _ _ _ _ _ [s] Hsweep). simpl.
  unfold attach. by rewrite Hrs, Hraw, Hc'.
Qed.

(** X12 (observing slots that point nowhere).  A registered observing slot
    whose address is attributed to no range gets no scan record: attaching
    one changes neither the batch that [collect] returns nor the slots. *)
Theorem collect_ignores_stray_observer (g g' : graph) (gb : garbage)
    (o : raw_graph_ptr) :
  find_range (ranges g) (rgp_ptr o) = None ->
  collect g = Some (g', gb) ->
  collect (attach_raw g o) = Some (attach_raw g' o, gb).
Proof.
  intros Hstray%find_range_None Hcol.
  destruct (collecting g) eqn:Hc.
  { rewrite collect_busy in Hcol by done. injection Hcol as <- <-.
    by apply collect_busy. }
  destruct (collect_Some g g' gb Hc Hcol)
    as (t & t' & Hsnap & Hmark & Hsweep & Hrs & Hraw & Hc').
  assert (snapshot (attach_raw g o) = Some t) as Hsnap'.
  { unfold snapshot in *. simpl.
    destruct (for_each (snap_owning (ranges g)) (pointers g) _) as [t1|];
      simpl in *; [|done].
    rewrite for_each_snoc, Hsnap. simpl. unfold snap_raw.
    by rewrite decide_True. }
  unfold collect, collect_impl. simpl. rewrite Hc, Hsnap'. simpl.
  rewrite Hmark. simpl. rewrite Hsweep. simpl.
  unfold attach_raw. by rewrite Hrs, Hraw, Hc'.
Qed.

(** X13 (what collect leaves alone).  [collect] never changes the range
    index, the observing registry or the in-progress flag it was entered
    with, and it keeps the number, the order, the storage addresses and the
    cached addresses of the owning slots: a slot is either as it was or has
    lost its strong reference. *)
Theorem collect_frame (g g' : graph) (gb : garbage) :
  collect g = Some (g', gb) ->
  ranges g' = ranges g /\ rawPointers g' = rawPointers g /\
  collecting g' = collecting g /\
  gp_addr <$> pointers g' = gp_addr <$> pointers g /\
  gp_get <$> pointers g' = gp_get <$> pointers g /\
  Forall2 (fun s s' => s' = s \/ s' = moved_from s)
          (pointers g) (pointers g').
Proof.
  intros Hcol.
  assert (ranges g' = ranges g /\ rawPointers g' = rawPointers g /\
          collecting g' = collecting g /\
          Forall2 (fun s s' => s' = s \/ s' = moved_from s)
                  (pointers g) (pointers g')) as (Hrs & Hraw & Hc' & Hshape).
  { destruct (collecting g) eqn:Hc.
    - rewrite collect_busy in Hcol by done. injection Hcol as <- <-.
      split_and!; try done. apply Forall_Forall2_diag, Forall_true. by left.
    - destruct (collect_Some g g' gb Hc Hcol)
        as (t & t' & _ & _ & Hsweep & Hrs & Hraw & Hc').
      split_and!; try done.
      apply sweep_shape in Hsweep as [Hlen Hshape].
      apply Forall2_same_length_lookup. split; [done|].
      intros i s s'. apply Hshape. }
  split_and!; try done.
  - symmetry. apply list_eq_Forall2, Forall2_fmap.
    eapply Forall2_impl; [exact Hshape|].
    by intros s s' [->| ->].
  - symmetry. apply list_eq_Forall2, Forall2_fmap.
    eapply Forall2_impl; [exact Hshape|].
    by intros s s' [->| ->].
Qed.

(** X14 (swap-and-pop walk).  On a [scan] whose indices are in bounds, one
    walk over a parent range ends within [scan.size()] iterations; it
    appends to [keep] exactly the records of [scan] whose slot is stored
    inside the range and leaves the others in [scan], losing and
    duplicating none. *)
Theorem walk_partitions (info : list scan_info) (b e : N)
    (scan keep : list N) :
  (forall j, j ∈ scan -> is_Some (info !! N.to_nat j)) ->
  exists scan' moved,
    walk (length scan) info b e 0 scan keep = Some (scan', keep ++ moved) /\
    scan ≡ₚ moved ++ scan' /\
    (forall j, j ∈ moved -> hit info b e j) /\
    (forall j, j ∈ scan' -> ~ hit info b e j).
Proof.
  intros Hval.
  destruct (walk_total info b e (length scan) 0 scan keep)
    as [[scan' keep'] Hwalk]; [done|lia..|].
  pose proof Hwalk as (Hperm & (moved & -> & Hmoved) & Hrest)%walk_spec;
    [|intros; lia].
  exists scan', moved. split_and!; [done| | |done].
  - rewrite <- app_assoc in Hperm. by apply Permutation_app_inv_l in Hperm.
  - intros j Hj. by destruct (Hmoved j Hj).
Qed.

(** * The mark phase on arbitrary arrays *)

Lemma mark_reach (t t' : trace) (fuel : nat) :
  Forall (fun sr => scanned sr = false) (rngs t) ->
  mark fuel 0 t = Some t' ->
  info t' = info t /\
  range_of <$> rngs t' = range_of <$> rngs t /\
  managed <$> rngs t' = managed <$> rngs t /\
  keep t' ++ scan t' ≡ₚ keep t ++ scan t /\
  (forall j,
     j ∈ keep t' <->
     reach (info t) (range_of <$> rngs t) (keep t) (keep t ++ scan t) j).
Proof.
  intros Hun Hmark.
  pose proof (mark_spec (info t) (range_of <$> rngs t) (managed <$> rngs t)
                (keep t) (scan t) fuel 0 t t' Hmark) as Hend.
  assert (mark_inv (info t) (range_of <$> rngs t) (managed <$> rngs t)
            (keep t) (scan t) (length (keep t')) t') as Hfinal.
  { apply Hend. by apply mark_inv_init. }
  pose proof Hfinal as [Hinfo Hb Hm Hperm _ Hreach _ _ _].
  split_and!; try done.
  intros j. split; [apply Hreach|].
  intros Hj. eapply mark_inv_closed; [exact Hfinal|exact Hj].
Qed.

Lemma reach_ext info rs keep0 all1 all2 j :
  (forall x, x ∈ all1 -> x ∈ all2) ->
  reach info rs keep0 all1 j -> reach info rs keep0 all2 j.
Proof.
  intros Hsub. induction 1 as [j Hj|i j si sj r _ IH Hall Hsi Hsj Hr Hin].
  - by apply reach_root.
  - eapply reach_inside; [exact IH|by apply Hsub|done..].
Qed.

(** X15 (what the mark phase computes).  Started on arrays whose indices
    are in bounds and whose ranges are all unscanned, the mark phase
    returns; it changes neither the records nor the bounds and [managed]
    flags of the ranges, it only moves records from [scan] to [keep], and at
    its end [keep] holds exactly the records reachable from the records it
    started with, a record being reached when its slot is stored inside
    the range that a reached record points to. *)
Theorem mark_closure (t : trace) :
  trace_valid t -> Forall (fun sr => scanned sr = false) (rngs t) ->
  exists t',
    mark (length (keep t) + length (scan t)) 0 t = Some t' /\
    info t' = info t /\
    range_of <$> rngs t' = range_of <$> rngs t /\
    managed <$> rngs t' = managed <$> rngs t /\
    keep t' ++ scan t' ≡ₚ keep t ++ scan t /\
    (forall j,
       j ∈ keep t' <->
       reach (info t) (range_of <$> rngs t) (keep t) (keep t ++ scan t) j).
Proof.
  intros Hval Hun.
  destruct (mark_total (length (keep t) + length (scan t)) 0 t)
    as (t' & Hmark & _); [done|lia..|].
  exists t'. split; [done|]. by eapply mark_reach.
Qed.

(** X16 (order of [scan]).  The records that end in [keep] do not depend on
    the order of [scan]: two runs of the mark phase that differ only in the
    order of [scan] keep the same records and leave the same records. *)
Theorem mark_scan_order (t1 t2 t1' t2' : trace) (fuel1 fuel2 : nat) :
  info t1 = info t2 -> rngs t1 = rngs t2 -> keep t1 = keep t2 ->
  scan t1 ≡ₚ scan t2 ->
  Forall (fun sr => scanned sr = false) (rngs t1) ->
  mark fuel1 0 t1 = Some t1' -> mark fuel2 0 t2 = Some t2' ->
  (forall j, j ∈ keep t1' <-> j ∈ keep t2') /\
  keep t1' ++ scan t1' ≡ₚ keep t2' ++ scan t2'.
Proof.
  intros Hinfo Hrngs Hkeep Hscan Hun Hm1 Hm2.
  destruct (mark_reach t1 t1' fuel1 Hun Hm1) as (_ & _ & _ & Hp1 & Hr1).
  rewrite Hrngs in Hun.
  destruct (mark_reach t2 t2' fuel2 Hun Hm2) as (_ & _ & _ & Hp2 & Hr2).
  split.
  - intros j. rewrite Hr1, Hr2, Hinfo, Hrngs, Hkeep.
    split; apply reach_ext; intros x; by rewrite Hscan.
  - by rewrite Hp1, Hp2, Hkeep, Hscan.
Qed.

(** * The records of the snapshot *)

Lemma omap_singleton {A B : Type} (f : A -> option B) (x : A) :
  omap f [x] = match f x with Some y => [y] | None => [] end.
Proof. done. Qed.

Lemma snapshot_info (g : graph) (t : trace) :
  snapshot g = Some t ->
  info t = omap (owning_record (ranges g)) (pointers g)
           ++ omap (observing_record (ranges g)) (rawPointers g).
Proof.
  unfold snapshot.
  destruct (for_each (snap_owning (ranges g)) (pointers g) _)
    as [t1|] eqn:Hown; simpl; [|done].
  intros Hraw.
  assert (info t1 = omap (owning_record (ranges g)) (pointers g)) as Hinfo1.
  { eapply (for_each_ind
              (fun done t => info t = omap (owning_record (ranges g)) done));
      [exact Hown|done|].
    intros done x rest t0 t0' _ Hdone. unfold snap_owning.
    rewrite omap_app, omap_singleton.
    destruct (owning_record (ranges g) x) as [si|] eqn:Hrec;
      unfold owning_record in Hrec; destruct (gp_ptr x); try done.
    - injection Hrec as <-.
      intros (r & _ & _ & -> & _)%record_slot_Some. by rewrite Hdone.
    - intros [= <-]. by rewrite app_nil_r. }
  eapply (for_each_ind
            (fun done t =>
               info t = omap (owning_record (ranges g)) (pointers g)
                        ++ omap (observing_record (ranges g)) done));
    [exact Hraw|by rewrite app_nil_r|].
  intros done x rest t0 t0' _ Hdone. unfold snap_raw.
  rewrite omap_app, omap_singleton.
  destruct (observing_record (ranges g) x) as [si|] eqn:Hrec;
    unfold observing_record in Hrec; case_decide; try done.
  - injection Hrec as <-.
    intros (r & _ & _ & -> & _)%record_slot_Some.
    by rewrite Hdone, <- !app_assoc.
  - intros [= <-]. by rewrite !app_nil_r.
Qed.

Lemma length_omap_le {A B : Type} (f : A -> option B) (l : list A) :
  (length (omap f l) <= length l)%nat.
Proof.
  induction l as [|x l IH]; csimpl; [done|].
  destruct (f x); simpl; lia.
Qed.

(** X17 (the scan records).  The snapshot makes one record for every
    non-null owning slot, in registry order, followed by one record for
    every observing slot that points into a range, so at most
    [pointers.size() + rawPointers.size()] records; [rngs] mirrors the
    index with both flags of every range unscanned; and while the slot
    count fits 32 bits, [keep] holds exactly the records of the slots that
    [find_range] finds in no range and [scan] holds the others. *)
Theorem snapshot_records (g : graph) (t : trace) :
  wf_graph g -> snapshot g = Some t ->
  info t = omap (owning_record (ranges g)) (pointers g)
           ++ omap (observing_record (ranges g)) (rawPointers g) /\
  (length (info t) <= length (pointers g) + length (rawPointers g))%nat /\
  range_of <$> rngs t = ranges g /\
  Forall (fun sr => scanned sr = false) (rngs t) /\
  NoDup (keep t ++ scan t) /\
  (forall (n : nat) si, info t !! n = Some si ->
     (N.of_nat n ∈ keep t <-> find_range (ranges g) (gp si) = None) /\
     (N.of_nat n ∈ scan t <-> find_range (ranges g) (gp si) <> None)).
Proof.
  intros Hwf Hsnap.
  pose proof (snapshot_info g t Hsnap) as Hinfo.
  destruct (snapshot_spec g t Hwf Hsnap) as (Hinv & _ & _).
  assert (NoDup (keep t ++ scan t)) as Hnodup.
  { rewrite (snap_perm _ _ Hinv). apply (NoDup_fmap_2 _), NoDup_seq. }
  split_and!; [done| |by destruct Hinv..|done|].
  - rewrite Hinfo, length_app.
    pose proof (length_omap_le (owning_record (ranges g)) (pointers g)).
    pose proof (length_omap_le (observing_record (ranges g)) (rawPointers g)).
    lia.
  - intros n si Hsi.
    assert (N.of_nat n ∈ keep t ++ scan t) as Hin.
    { apply (snap_inv_index _ _ _ Hinv). exists n. split; [done|].
      by eapply lookup_lt_Some. }
    apply NoDup_app in Hnodup as (_ & Hdisj & _).
    assert (info t !! N.to_nat (N.of_nat n) = Some si) as Hsi'
      by (by rewrite Nat2N.id).
    split; split.
    + intros Hk. by eapply (snap_keep _ _ Hinv).
    + intros Hroot. apply elem_of_app in Hin as [|Hs]; [done|].
      by destruct (snap_scan _ _ Hinv _ _ Hs Hsi').
    + intros Hs. by eapply (snap_scan _ _ Hinv).
    + intros Hnroot. apply elem_of_app in Hin as [Hk|]; [|done].
      by destruct Hnroot; eapply (snap_keep _ _ Hinv).
Qed.

(** * What collect sweeps, exactly *)

Lemma moved_from_idemp s : moved_from (moved_from s) = moved_from s.
Proof. done. Qed.

Lemma NoDup_fmap_elem {A B : Type} (f : A -> B) (l : list A) (x y : A) :
  NoDup (f <$> l) -> x ∈ l -> y ∈ l -> f x = f y -> x = y.
Proof.
  intros Hnodup [i Hi]%list_elem_of_lookup [j Hj]%list_elem_of_lookup Heq.
  assert (i = j) as ->; [|congruence].
  eapply (NoDup_lookup _ i j (f x) Hnodup).
  - by rewrite list_lookup_fmap, Hi.
  - by rewrite list_lookup_fmap, Hj; simpl; rewrite Heq.
Qed.

Lemma NoDup_omap_inj {A B : Type} (f : A -> option B) (l : list A) :
  NoDup l ->
  (forall x y a, x ∈ l -> y ∈ l -> f x = Some a -> f y = Some a -> x = y) ->
  NoDup (omap f l).
Proof.
  induction 1 as [|x l Hx Hnodup IH]; intros Hinj; csimpl;
    [apply NoDup_nil_2|].
  assert (NoDup (omap f l)) as Hrest.
  { apply IH. intros y z a Hy Hz. apply Hinj; by right. }
  destruct (f x) as [a|] eqn:Hfx; [|done].
  apply NoDup_cons. split; [|done].
  intros (y & Hy & Hfy)%list_elem_of_omap.
  apply Hx. rewrite (Hinj x y a); [done|by left|by right|done..].
Qed.

Lemma NoDup_owning_records rs ptrs :
  NoDup (gp_addr <$> ptrs) -> NoDup (gp <$> omap (owning_record rs) ptrs).
Proof.
  induction ptrs as [|s ptrs IH]; csimpl; [by intros _; apply NoDup_nil_2|].
  intros [Hs Hnodup]%NoDup_cons. specialize (IH Hnodup).
  unfold owning_record at 1. destruct (gp_ptr s); [|done].
  csimpl. apply NoDup_cons. split; [|done].
  intros (si & Hgp & (s' & Hs' & Hrec)%list_elem_of_omap)%list_elem_of_fmap.
  apply Hs. apply list_elem_of_fmap. exists s'. split; [|done].
  unfold owning_record in Hrec. destruct (gp_ptr s'); [|done].
  injection Hrec as <-. done.
Qed.

Lemma managed_lookup (l1 l2 : list scan_range) (k : nat) sr1 :
  managed <$> l1 = managed <$> l2 -> l1 !! k = Some sr1 ->
  exists sr2, l2 !! k = Some sr2 /\ managed sr2 = managed sr1.
Proof.
  intros Heq Hk.
  assert ((managed <$> l2) !! k = Some (managed sr1)) as Hlook
    by (by rewrite <- Heq, list_lookup_fmap, Hk).
  apply list_lookup_fmap_Some in Hlook as (sr2 & ? & ?). by exists sr2.
Qed.

Lemma swept_slot_nil (ptrs : list graph_ptr) : swept_slot [] <$> ptrs = ptrs.
Proof.
  induction ptrs as [|s ptrs IH]; csimpl; [done|]. rewrite IH.
  unfold swept_slot. rewrite decide_False; [done|]. apply not_elem_of_nil.
Qed.

Lemma sweep_exact t todo ptrs acc ptrs' gb :
  NoDup (gp_addr <$> ptrs) -> NoDup (omap (swept_addr t) todo) ->
  sweep t todo ptrs acc = Some (ptrs', gb) ->
  ptrs' = swept_slot (omap (swept_addr t) todo) <$> ptrs /\
  exists sw,
    gb = acc ++ (gp_ptr <$> sw) /\ NoDup sw /\
    forall s, s ∈ sw <-> s ∈ ptrs /\ gp_addr s ∈ omap (swept_addr t) todo.
Proof.
  revert ptrs acc.
  induction todo as [|idx todo IH]; intros ptrs acc Hptrs Htodo.
  - simpl. intros [= <- <-]. split; [by rewrite swept_slot_nil|].
    exists []. rewrite app_nil_r. split_and!; [done|apply NoDup_nil_2|].
    intros s. split; [by intros ?%elem_of_nil|].
    by intros [_ ?%elem_of_nil].
  - cbn [sweep]. csimpl in Htodo. csimpl.
    destruct (info t !! N.to_nat idx) as [si|] eqn:Hsi; simpl; [|done].
    destruct (rngs t !! range si) as [r|] eqn:Hr; simpl; [|done].
    assert (swept_addr t idx = if managed r then Some (gp si) else None)
      as Hsa.
    { unfold swept_addr. by rewrite Hsi; simpl; rewrite Hr. }
    rewrite Hsa in Htodo |- *. clear Hsa.
    destruct (managed r); [|by apply IH].
    apply NoDup_cons in Htodo as [Hfresh Htodo].
    destruct (list_find _ ptrs) as [[k mptr]|] eqn:Hfind; simpl; [|done].
    apply list_find_Some in Hfind as (Hk & Haddr & _).
    set (A := omap (swept_addr t) todo) in *.
    assert (gp_addr <$> <[k:=moved_from mptr]> ptrs = gp_addr <$> ptrs)
      as Haddrs.
    { rewrite list_fmap_insert. simpl. apply list_insert_id.
      by rewrite list_lookup_fmap, Hk. }
    assert (forall (i : nat) s, ptrs !! i = Some s ->
              gp_addr s = gp si -> i = k) as Huniq.
    { intros i s Hi Hs. eapply (NoDup_lookup _ i k (gp si) Hptrs).
      - by rewrite list_lookup_fmap, Hi; simpl; rewrite Hs.
      - by rewrite list_lookup_fmap, Hk; simpl; rewrite Haddr. }
    intros Hsweep.
    apply IH in Hsweep as (-> & sw & -> & Hsw & Hmem);
      [|by rewrite Haddrs|done].
    split.
    + apply list_eq. intros i. rewrite !list_lookup_fmap.
      destruct (decide (i = k)) as [->|Hne].
      * rewrite list_lookup_insert_eq by (by eapply lookup_lt_Some).
        rewrite Hk. simpl. f_equal. unfold swept_slot. simpl.
        rewrite (decide_True (P := gp_addr mptr ∈ gp si :: A))
          by (rewrite Haddr; by left).
        by case_decide.
      * rewrite list_lookup_insert_ne by done.
        destruct (ptrs !! i) as [s|] eqn:Hi; simpl; [|done]. f_equal.
        assert (gp_addr s <> gp si) by (intros ?; by apply Hne, (Huniq i s)).
        unfold swept_slot. do 2 case_decide; try done.
        -- exfalso. by apply H1; right.
        -- exfalso. by apply elem_of_cons in H1 as [|].
    + exists (mptr :: sw). rewrite <- app_assoc. split_and!; [done| |].
      * apply NoDup_cons. split; [|done]. intros [_ Hin]%Hmem.
        apply Hfresh. by rewrite <- Haddr.
      * intros s. rewrite elem_of_cons, Hmem. split.
        -- intros [->|[[i Hi]%list_elem_of_lookup HA]].
           ++ split; [by eapply list_elem_of_lookup_2|].
              rewrite Haddr. by left.
           ++ destruct (decide (i = k)) as [->|Hne].
              ** rewrite list_lookup_insert_eq in Hi
                   by (by eapply lookup_lt_Some).
                 injection Hi as <-. simpl in HA. by rewrite Haddr in HA.
              ** rewrite list_lookup_insert_ne in Hi by done.
                 split; [by eapply list_elem_of_lookup_2|by right].
        -- intros [[i Hi]%list_elem_of_lookup [Ha|HA]%elem_of_cons].
           ++ left. rewrite (Huniq i s Hi Ha) in Hi. congruence.
           ++ right. split; [|done].
              apply (list_elem_of_lookup_2 _ i).
              rewrite list_lookup_insert_ne; [done|].
              intros ->. assert (s = mptr) as -> by congruence.
              apply Hfresh. by rewrite <- Haddr.
Qed.

Lemma swept_addr_Some t idx a :
  swept_addr t idx = Some a <->
  exists sj sr, info t !! N.to_nat idx = Some sj /\
    rngs t !! range sj = Some sr /\ managed sr = true /\ gp sj = a.
Proof.
  unfold swept_addr. split.
  - destruct (info t !! N.to_nat idx) as [sj|]; simpl; [|done].
    destruct (rngs t !! range sj) as [sr|] eqn:Hsr; simpl; [|done].
    destruct (managed sr) eqn:Hm; [|done].
    intros [= <-]. by exists sj, sr.
  - intros (sj & sr & -> & Hsr & Hm & <-). simpl. rewrite Hsr. simpl.
    by rewrite Hm.
Qed.

Lemma Forall2_fmap_self {A : Type} (R : A -> A -> Prop) (f : A -> A)
    (l : list A) :
  (forall x, x ∈ l -> R x (f x)) -> Forall2 R l (f <$> l).
Proof.
  induction l as [|x l IH]; intros Hall; csimpl; constructor.
  - apply Hall. by left.
  - apply IH. intros y Hy. apply Hall. by right.
Qed.

Section swept_records.
Context (g : graph) (t t' : trace) (fuel : nat).
Hypothesis Hwf : wf_graph g.
Hypothesis Hnodup : NoDup (gp_addr <$> pointers g).
Hypothesis Hsnap : snapshot g = Some t.
Hypothesis Hmark : mark fuel 0 t = Some t'.

(** A record of [scan] that the sweep moves out belongs to a collectable
    owning slot. *)
Lemma swept_record idx a :
  idx ∈ scan t' -> swept_addr t' idx = Some a ->
  exists (n : nat) sj,
    idx = N.of_nat n /\ info t !! n = Some sj /\ gp sj = a /\
    ~ kept g a /\ (exists s, owner_of g s (range sj)) /\
    ~ (exists o, observer_of g o (range sj)).
Proof.
  intros Hidx (sj & sr' & Hsj & Hsr' & Hm' & Ha)%swept_addr_Some.
  destruct (trace_spec g t Hwf Hsnap _ t' Hmark) as (Hinfo & Hman & Hfate & Hn).
  destruct (snapshot_spec g t Hwf Hsnap) as (_ & _ & Hmanaged).
  destruct (Hn idx Hidx) as (n & -> & Hlt).
  rewrite Hinfo, Nat2N.id in Hsj.
  destruct (managed_lookup _ _ _ _ Hman Hsr') as (sr & Hsr & Hm).
  rewrite Hm' in Hm. apply (Hmanaged _ _ Hsr) in Hm as [Hown Hnobs].
  exists n, sj. split_and!; try done.
  rewrite <- Ha. by apply (Hfate n sj Hsj).
Qed.

Lemma swept_collectable s :
  s ∈ pointers g ->
  gp_addr s ∈ omap (swept_addr t') (scan t') <-> collectable g s.
Proof.
  intros Hs.
  destruct (trace_spec g t Hwf Hsnap _ t' Hmark) as (Hinfo & Hman & Hfate & _).
  destruct (snapshot_spec g t Hwf Hsnap) as (Hinv & Hrec & Hmanaged).
  split.
  - intros (idx & Hidx & Hswept)%list_elem_of_omap.
    destruct (swept_record idx _ Hidx Hswept)
      as (n & sj & -> & Hsj & Ha & Hnot & _ & Hnobs).
    assert (has_record g sj) as [(s0 & Hown & Hgp)|(o & Hobs & _)].
    { apply Hrec. by eapply list_elem_of_lookup_2. }
    + assert (s0 = s) as ->.
      { eapply (NoDup_fmap_elem gp_addr); [done|apply Hown|done|congruence]. }
      destruct Hown as (_ & Hsome & Hk).
      split_and!; [done..|]. by rewrite Hk.
    + destruct Hnobs. by exists o.
  - intros (Hsome & Hnot & Hnobs).
    set (k := find_range_iterator (ranges g) (gp_get s)) in *.
    assert (owner_of g s k) as Hown by done.
    assert (ScanInfo (gp_addr s) k ∈ info t) as [n Hn]%list_elem_of_lookup.
    { apply Hrec. left. by exists s. }
    assert (k < length (rngs t))%nat as Hk.
    { rewrite (snap_inv_length _ _ Hinv).
      apply (snap_range _ _ Hinv (ScanInfo (gp_addr s) k)).
      by eapply list_elem_of_lookup_2. }
    destruct (lookup_lt_is_Some_2 _ _ Hk) as [sr Hsr].
    assert (managed sr = true) as Hm.
    { apply (Hmanaged k sr Hsr). split; [by exists s|done]. }
    destruct (managed_lookup _ _ _ _ (eq_sym Hman) Hsr) as (sr' & Hsr' & Hm').
    apply list_elem_of_omap. exists (N.of_nat n). split.
    + by apply (Hfate n _ Hn).
    + apply swept_addr_Some. exists (ScanInfo (gp_addr s) k), sr'.
      rewrite Hinfo, Nat2N.id. split_and!; try done. congruence.
Qed.

Lemma swept_nodup : NoDup (omap (swept_addr t') (scan t')).
Proof.
  destruct (snapshot_spec g t Hwf Hsnap) as (Hinv & _ & _).
  destruct (mark_reach t t' fuel (snap_unscanned _ _ Hinv) Hmark)
    as (_ & _ & _ & Hperm & _).
  assert (NoDup (scan t')) as Hscan.
  { assert (NoDup (keep t' ++ scan t')) as Hboth.
    { rewrite Hperm, (snap_perm _ _ Hinv).
      apply (NoDup_fmap_2 _), NoDup_seq. }
    by apply NoDup_app in Hboth as (_ & _ & ?). }
  apply NoDup_omap_inj; [done|].
  intros idx1 idx2 a Hidx1 Hidx2 Hsw1 Hsw2.
  destruct (swept_record idx1 a Hidx1 Hsw1)
    as (n1 & sj1 & -> & Hsj1 & Ha1 & _ & _ & Hnobs1).
  destruct (swept_record idx2 a Hidx2 Hsw2)
    as (n2 & sj2 & -> & Hsj2 & Ha2 & _ & _ & Hnobs2).
  f_equal.
  pose proof (snapshot_info g t Hsnap) as Hinfo.
  assert (forall (n : nat) sj,
            info t !! n = Some sj ->
            ~ (exists o, observer_of g o (range sj)) ->
            omap (owning_record (ranges g)) (pointers g) !! n = Some sj)
    as Howning.
  { intros n sj Hsj Hnobs. rewrite Hinfo in Hsj.
    apply lookup_app_Some in Hsj as [|[_ Hsj]]; [done|].
    apply list_elem_of_lookup_2, list_elem_of_omap in Hsj
      as (o & Ho & Hrec).
    unfold observing_record in Hrec. case_decide as Hend; [done|].
    injection Hrec as <-. destruct Hnobs. exists o.
    split_and!; [done..|]. simpl.
    pose proof (find_range_iterator_le (ranges g) (rgp_ptr o)). lia. }
  eapply (NoDup_lookup _ n1 n2 a (NoDup_owning_records (ranges g) _ Hnodup)).
  - by rewrite list_lookup_fmap, (Howning n1 sj1 Hsj1 Hnobs1); simpl;
      rewrite Ha1.
  - by rewrite list_lookup_fmap, (Howning n2 sj2 Hsj2 Hnobs2); simpl;
      rewrite Ha2.
Qed.
End swept_records.


(** * Collecting twice *)

Lemma snapshot_in_bounds (g : graph) :
  (forall s, s ∈ pointers g -> is_Some (gp_ptr s) ->
     (find_range_iterator (ranges g) (gp_get s) < length (ranges g))%nat) ->
  is_Some (snapshot g).
Proof.
  intros Hin. unfold snapshot.
  set (I := fun t : trace => length (rngs t) = length (ranges g)).
  destruct (for_each_total I (snap_owning (ranges g)) (pointers g)
              (Trace ((fun r => ScanRange (begin r) (end_ r) false false)
                        <$> ranges g) [] [] []))
    as (t1 & -> & Ht1).
  { unfold I. simpl. by rewrite length_fmap. }
  { intros s t0 Hs Ht0. unfold snap_owning.
    destruct (gp_ptr s) as [h|] eqn:Hh; [|by exists t0].
    destruct (record_slot_total (ranges g) t0 (gp_addr s)
                (find_range_iterator (ranges g) (gp_get s)) true)
      as (t1 & ? & ?).
    { unfold I in Ht0. rewrite Ht0. apply Hin; [done|by rewrite Hh]. }
    exists t1. split; [done|]. unfold I in *. congruence. }
  simpl.
  destruct (for_each_total I (snap_raw (ranges g)) (rawPointers g) t1)
    as (t2 & -> & _); [done| |done].
  intros o t0 Ho Ht0. unfold snap_raw. case_decide as Hend; [by exists t0|].
  pose proof (find_range_iterator_le (ranges g) (rgp_ptr o)).
  destruct (record_slot_total (ranges g) t0 (rgp_addr o)
              (find_range_iterator (ranges g) (rgp_ptr o)) false)
    as (t1' & ? & ?); [unfold I in Ht0; lia|].
  exists t1'. split; [done|]. unfold I in *. congruence.
Qed.

Lemma sweep_none t todo ptrs acc :
  (forall idx, idx ∈ todo ->
     exists si r, info t !! N.to_nat idx = Some si /\
       rngs t !! range si = Some r /\ managed r = false) ->
  sweep t todo ptrs acc = Some (ptrs, acc).
Proof.
  induction todo as [|idx todo IH]; intros Hnone; simpl; [done|].
  destruct (Hnone idx) as (si & r & -> & Hr & Hm); [by left|]. simpl.
  rewrite Hr. simpl. rewrite Hm. apply IH.
  intros idx' Hidx'. apply Hnone. by right.
Qed.

(** The slots after a collection, one by one. *)
Lemma collect_slots (g g' : graph) (gb : garbage) :
  wf_graph g -> NoDup (gp_addr <$> pointers g) -> collecting g = false ->
  collect g = Some (g', gb) ->
  Forall2 (fun s s' => (collectable g s /\ s' = moved_from s) \/
                       (~ collectable g s /\ s' = s))
          (pointers g) (pointers g').
Proof.
  intros Hwf Hnodup Hc Hcol.
  destruct (collect_Some g g' gb Hc Hcol)
    as (t & t' & Hsnap & Hmark & Hsweep & _).
  pose proof (swept_nodup g t t' _ Hwf Hnodup Hsnap Hmark) as HA.
  pose proof (swept_collectable g t t' _ Hwf Hnodup Hsnap Hmark) as Hiff.
  apply sweep_exact in Hsweep as (Hptrs & _); [|done..].
  rewrite Hptrs. apply Forall2_fmap_self.
  intros s Hs. unfold swept_slot. case_decide as Hin.
  - left. split; [by apply Hiff|done].
  - right. split; [|done]. by rewrite <- Hiff.
Qed.

Section second_collect.
Context (g g' : graph) (gb : garbage).
Hypothesis Hwf : wf_graph g.
Hypothesis Hnodup : NoDup (gp_addr <$> pointers g).
Hypothesis Hc : collecting g = false.
Hypothesis Hcol : collect g = Some (g', gb).

Lemma collected_frame :
  ranges g' = ranges g /\ rawPointers g' = rawPointers g /\
  collecting g' = false /\ gp_addr <$> pointers g' = gp_addr <$> pointers g.
Proof.
  destruct (collect_Some g g' gb Hc Hcol)
    as (t & t' & _ & _ & Hsweep & Hrs & Hraw & Hc').
  split_and!; try done. by eapply sweep_addr.
Qed.

Lemma collected_wf : wf_graph g' /\ NoDup (gp_addr <$> pointers g').
Proof.
  destruct collected_frame as (Hrs & Hraw & _ & Haddr).
  destruct Hwf as [Hidx Hfit].
  split; [split|]; rewrite ?Hrs, ?Hraw, ?Haddr; try done.
  by rewrite <- (length_fmap gp_addr (pointers g')), Haddr, length_fmap.
Qed.

(** A slot that still holds a reference was there before and was not
    collectable. *)
Lemma collected_nonnull s :
  s ∈ pointers g' -> is_Some (gp_ptr s) ->
  s ∈ pointers g /\ ~ collectable g s.
Proof.
  intros [i Hi]%list_elem_of_lookup Hsome.
  pose proof (collect_slots g g' gb Hwf Hnodup Hc Hcol) as Hshape.
  destruct (Forall2_lookup_r _ _ _ _ _ Hshape Hi)
    as (s0 & Hs0 & [[_ ->]|[Hnot ->]]).
  - by destruct Hsome.
  - split; [by eapply list_elem_of_lookup_2|done].
Qed.

(** A slot stored at a kept address is still there. *)
Lemma collected_kept s :
  s ∈ pointers g -> kept g (gp_addr s) -> s ∈ pointers g'.
Proof.
  intros [i Hi]%list_elem_of_lookup Hkept.
  pose proof (collect_slots g g' gb Hwf Hnodup Hc Hcol) as Hshape.
  destruct (Forall2_lookup_l _ _ _ _ _ Hshape Hi)
    as (s' & Hs' & [[(_ & Hnot & _) _]|[_ ->]]); [done|].
  by eapply list_elem_of_lookup_2.
Qed.

Lemma collected_observer o k : observer_of g' o k <-> observer_of g o k.
Proof.
  destruct collected_frame as (Hrs & Hraw & _).
  unfold observer_of. by rewrite Hrs, Hraw.
Qed.

Lemma collected_kept_mono a : kept g a -> kept g' a.
Proof.
  destruct collected_frame as (Hrs & Hraw & _).
  induction 1 as [a Hroot|a si r Hkept IH Hrec Hr Hin].
  - apply kept_root. by rewrite Hrs.
  - apply (kept_inside g' a si r); [done| |by rewrite Hrs|done].
    destruct Hrec as [(s & (Hs & Hsome & Hk) & Hgp)|(o & Hobs & Hgp)].
    + left. exists s. split; [|done]. rewrite Hgp in Hkept.
      split_and!; [by apply collected_kept|done|by rewrite Hrs].
    + right. exists o. split; [|done]. by apply collected_observer.
Qed.

Lemma collect_again : collect g' = Some (g', []).
Proof.
  destruct collected_frame as (Hrs & Hraw & Hc' & Haddr).
  destruct collected_wf as [Hwf' Hnodup'].
  destruct (collect_Some g g' gb Hc Hcol)
    as (t & t' & Hsnap & _ & _ & _).
  destruct (snapshot_spec g t Hwf Hsnap) as (Hinv & Hrec & _).
  destruct (snapshot_in_bounds g') as [t2 Hsnap2].
  { intros s Hs Hsome.
    destruct (collected_nonnull s Hs Hsome) as [Hs0 _].
    rewrite Hrs.
    apply (snap_range _ _ Hinv
             (ScanInfo (gp_addr s)
                (find_range_iterator (ranges g) (gp_get s)))).
    apply Hrec. left. by exists s. }
  destruct (snapshot_spec g' t2 Hwf' Hsnap2) as (Hinv2 & Hrec2 & _).
  destruct (mark_total (length (keep t2) + length (scan t2)) 0 t2)
    as (t2' & Hmark2 & _); [by eapply snap_inv_valid|lia..|].
  destruct (trace_spec g' t2 Hwf' Hsnap2 _ t2' Hmark2)
    as (Hinfo2 & Hman2 & _ & Hidx2).
  assert (sweep t2' (scan t2') (pointers g') []
          = Some (pointers g', [])) as Hsweep2.
  { apply sweep_none. intros idx Hidx.
    destruct (Hidx2 idx Hidx) as (n & -> & Hn).
    destruct (lookup_lt_is_Some_2 _ _ Hn) as [sj Hsj].
    assert (range sj < length (rngs t2'))%nat as Hk.
    { rewrite <- (length_fmap managed), Hman2, length_fmap.
      rewrite (snap_inv_length _ _ Hinv2).
      apply (snap_range _ _ Hinv2). by eapply list_elem_of_lookup_2. }
    destruct (lookup_lt_is_Some_2 _ _ Hk) as [sr Hsr].
    exists sj, sr. rewrite Hinfo2, Nat2N.id. split_and!; [done..|].
    destruct (managed sr) eqn:Hm; [exfalso|done].
    destruct (swept_record g' t2 t2' _ Hwf' Hsnap2 Hmark2
                (N.of_nat n) (gp sj) Hidx)
      as (n' & sj' & Hn' & Hsj' & Hgp & Hnot & _ & Hnobs).
    { apply swept_addr_Some. exists sj, sr.
      by rewrite Hinfo2, Nat2N.id. }
    apply Nat2N.inj in Hn'. subst n'.
    assert (sj' = sj) as -> by congruence.
    assert (has_record g' sj) as [(s & (Hs & Hsome & Hrange) & Ha)|(o & Ho & _)].
    { apply Hrec2. by eapply list_elem_of_lookup_2. }
    - destruct (collected_nonnull s Hs Hsome) as [Hs0 Hncol].
      apply Hncol. split_and!; [done| |].
      + intros Hkept%collected_kept_mono. apply Hnot. by rewrite Ha.
      + intros (o & Ho). apply Hnobs. exists o.
        apply collected_observer. by rewrite <- Hrange, Hrs.
    - apply Hnobs. by exists o. }
  unfold collect, collect_impl. rewrite Hc', Hsnap2. simpl.
  rewrite Hmark2. simpl. rewrite Hsweep2. simpl.
  destruct g' as [rs' ps' raws' c']. simpl in *. by rewrite Hc'.
Qed.
End second_collect.

(** X19 (idempotence).  On a well-formed graph whose owning slots have
    distinct storage addresses, a second [collect] right after a first one
    returns the empty batch and changes nothing. *)
Theorem collect_twice (g g' : graph) (gb : garbage) :
  wf_graph g -> NoDup (gp_addr <$> pointers g) -> collecting g = false ->
  collect g = Some (g', gb) ->
  collect g' = Some (g', []).
Proof. apply collect_again. Qed.

(** * The further properties at concrete inputs *)

Ltac wf_index_tac :=
  cbn; unfold nonempty, disjoint; simpl;
  repeat first [split | apply Forall_cons | apply Forall_nil]; simpl; lia.

Lemma find_range_inside_witness :
  find_range heap3 210 = Some (MemoryRange 200 220) /\
  heap3 !! find_range_iterator heap3 210 = Some (MemoryRange 200 220).
Proof.
  apply find_range_inside.
  - apply wf_heap3.
  - repeat constructor.
  - unfold contains. simpl. lia.
  - lia.
Defined.

Lemma find_range_at_end_witness :
  find_range heap3 120 = Some (MemoryRange 100 120).
Proof.
  apply (proj2 (find_range_at_end heap3 (MemoryRange 100 120)
                  (proj1 wf_heap3) ltac:(repeat constructor))).
  intros r [->|[->| ->]]%elem_of_heap3; simpl; lia.
Defined.

Lemma add_range_find_range_witness :
  find_range (add_range [MemoryRange 100 120; MemoryRange 300 320] 200 20) 205
  = Some (MemoryRange 200 220).
Proof.
  assert (wf_index [MemoryRange 100 120; MemoryRange 300 320]) as Hwf
    by wf_index_tac.
  assert (Forall (disjoint (MemoryRange 200 (200 + 20)))
                 [MemoryRange 100 120; MemoryRange 300 320]) as Hdis
    by wf_index_tac.
  apply (proj1 (add_range_find_range _ 200 20 Hwf ltac:(lia) ltac:(lia)
                  Hdis)).
  lia.
Defined.

Lemma add_remove_round_trip_witness :
  remove_range
    (add_range [MemoryRange 100 120; MemoryRange 300 320] 200 20) 200
  = Some [MemoryRange 100 120; MemoryRange 300 320].
Proof.
  apply add_remove_round_trip; [wf_index_tac|lia|lia|wf_index_tac].
Defined.

Lemma remove_range_forgets_witness :
  exists rs',
    remove_range heap3 200 = Some rs' /\ find_range rs' 210 = None.
Proof.
  destruct (remove_range_forgets heap3 (MemoryRange 200 220))
    as (rs' & Hrm & _ & _ & _ & Hgone & _).
  - apply wf_heap3.
  - repeat constructor.
  - simpl. lia.
  - exists rs'. split; [exact Hrm|]. apply Hgone. simpl. lia.
Defined.

Lemma add_range_comm_witness :
  add_range (add_range [MemoryRange 100 120] 300 20) 200 20
  = add_range (add_range [MemoryRange 100 120] 200 20) 300 20.
Proof.
  apply add_range_comm; [wf_index_tac|lia|lia|wf_index_tac..].
Defined.

Lemma allocated_objects_counts_witness :
  allocated_objects shared_graph = 3%Z /\
  allocated_objects (graph_add_range shared_graph 400 8) = 4%Z.
Proof.
  destruct (allocated_objects_counts shared_graph) as (Hcount & Hadd & _).
  - simpl. lia.
  - split; [exact Hcount|]. rewrite Hadd, Hcount. reflexivity.
Defined.

Lemma allocated_bytes_total_witness :
  allocated_bytes shared_graph = 60%Z /\
  (3 <= total_bytes heap3)%Z.
Proof.
  destruct (allocated_bytes_total shared_graph) as [Hsum Hcount].
  split; [rewrite Hsum; reflexivity|].
  apply (Hcount (proj1 wf_heap3)).
Defined.

Lemma allocated_bytes_steps_witness :
  allocated_bytes (graph_add_range shared_graph 400 8) = 68%Z /\
  exists r, r ∈ heap3 /\ contains_incl r 205.
Proof.
  destruct (allocated_bytes_steps shared_graph 400) as [Hadd _].
  destruct (allocated_bytes_steps shared_graph 205) as [_ Hrm].
  split; [rewrite Hadd; reflexivity|].
  destruct (Hrm (Graph [MemoryRange 100 120; MemoryRange 300 320]
                       (pointers shared_graph) [] false))
    as (r & Hr & Hin & _); [reflexivity|].
  exists r. split; [exact Hr|exact Hin].
Defined.

Lemma detach_attach_witness :
  detach (attach cycle_graph (GraphPtr 1000 (Some 1) 100)) 1000 = cycle_graph.
Proof.
  apply (proj1 (detach_attach cycle_graph) (GraphPtr 1000 (Some 1) 100)).
  intros s Hs. simpl in Hs. rewrite !elem_of_cons, elem_of_nil in Hs.
  destruct Hs as [->|[->|[]]]; simpl; lia.
Defined.

Lemma collect_ignores_null_slot_witness :
  exists g',
    collect (attach cycle_graph (GraphPtr 1000 None 0))
    = Some (attach g' (GraphPtr 1000 None 0), [Some 2; Some 1]).
Proof.
  eexists. apply collect_ignores_null_slot; [reflexivity|].
  vm_compute; reflexivity.
Defined.

Lemma collect_ignores_stray_observer_witness :
  exists g',
    collect (attach_raw cycle_graph (RawGraphPtr 1000 5000))
    = Some (attach_raw g' (RawGraphPtr 1000 5000), [Some 2; Some 1]).
Proof.
  eexists. apply collect_ignores_stray_observer;
    vm_compute; reflexivity.
Defined.

Lemma collect_frame_witness :
  exists g',
    collect shared_graph = Some (g', [Some 3; Some 2; Some 1]) /\
    ranges g' = heap3 /\
    gp_addr <$> pointers g' = [1000; 204; 304; 208].
Proof.
  eexists. split; [vm_compute; reflexivity|].
  edestruct (collect_frame shared_graph) as (Hrs & _ & _ & Haddr & _).
  - vm_compute; reflexivity.
  - split; [exact Hrs|exact Haddr].
Defined.

Lemma walk_partitions_witness :
  exists scan' moved,
    walk 2 (info rooted_cycle_trace) 100 120 0 [1; 2] [0]
    = Some (scan', [0] ++ moved) /\ [1; 2] ≡ₚ moved ++ scan'.
Proof.
  destruct (walk_partitions (info rooted_cycle_trace) 100 120 [1; 2] [0])
    as (scan' & moved & Hwalk & Hperm & _).
  - intros j Hj. rewrite !elem_of_cons, elem_of_nil in Hj.
    destruct Hj as [->|[->|[]]]; by eexists.
  - exists scan', moved. split; [exact Hwalk|exact Hperm].
Defined.

Lemma rooted_cycle_trace_valid : trace_valid rooted_cycle_trace.
Proof.
  split.
  - intros j Hj. simpl in Hj. rewrite !elem_of_cons, elem_of_nil in Hj.
    destruct Hj as [->|[->|[->|[]]]]; by eexists.
  - intros si Hsi. simpl in Hsi. rewrite !elem_of_cons, elem_of_nil in Hsi.
    destruct Hsi as [->|[->|[->|[]]]]; simpl; lia.
Qed.

Lemma mark_closure_witness :
  exists t',
    mark 3 0 rooted_cycle_trace = Some t' /\
    info t' = info rooted_cycle_trace /\
    keep t' ++ scan t' ≡ₚ [0; 1; 2].
Proof.
  destruct (mark_closure rooted_cycle_trace)
    as (t' & Hmark & Hinfo & _ & _ & Hperm & _).
  - apply rooted_cycle_trace_valid.
  - repeat constructor.
  - exists t'. split_and!; [exact Hmark|exact Hinfo|exact Hperm].
Defined.

Lemma mark_scan_order_witness :
  exists t1' t2',
    mark 3 0 rooted_cycle_trace = Some t1' /\
    mark 3 0 (Trace (rngs rooted_cycle_trace) (info rooted_cycle_trace)
                    [2; 1] [0]) = Some t2' /\
    (forall j, j ∈ keep t1' <-> j ∈ keep t2').
Proof.
  eexists _, _. split; [vm_compute; reflexivity|].
  split; [vm_compute; reflexivity|].
  eapply (mark_scan_order rooted_cycle_trace
            (Trace (rngs rooted_cycle_trace) (info rooted_cycle_trace)
                   [2; 1] [0]) _ _ 3 3).
  - reflexivity.
  - reflexivity.
  - reflexivity.
  - simpl. apply perm_swap.
  - repeat constructor.
  - vm_compute; reflexivity.
  - vm_compute; reflexivity.
Defined.

Lemma snapshot_records_witness :
  info rooted_cycle_trace
  = omap (owning_record heap3) (pointers rooted_cycle) ++ [] /\
  (length (info rooted_cycle_trace) <= 3)%nat.
Proof.
  destruct (snapshot_records rooted_cycle rooted_cycle_trace)
    as (Hinfo & Hlen & _).
  - split; [apply wf_heap3|vm_compute; reflexivity].
  - vm_compute; reflexivity.
  - split; [exact Hinfo|exact Hlen].
Defined.

Lemma cycle_graph_nodup : NoDup (gp_addr <$> pointers cycle_graph).
Proof.
  simpl. repeat constructor; rewrite ?elem_of_cons, ?elem_of_nil;
    intuition congruence.
Qed.


Lemma collect_twice_witness :
  collect (Graph heap3
                 [GraphPtr 104 None 200; GraphPtr 204 None 100] [] false)
  = Some (Graph heap3
                [GraphPtr 104 None 200; GraphPtr 204 None 100] [] false, []).
Proof.
  apply (collect_twice cycle_graph _ [Some 2; Some 1]).
  - split; [apply wf_heap3|vm_compute; reflexivity].
  - apply cycle_graph_nodup.
  - reflexivity.
  - vm_compute; reflexivity.
Defined.

Lemma collect_total_witness : is_Some (collect rooted_cycle).
Proof.
  apply collect_total.
  - split; [apply wf_heap3|vm_compute; reflexivity].
  - apply wf_heap3.
  - intros s Hs _. simpl in Hs. rewrite !elem_of_cons, elem_of_nil in Hs.
    destruct Hs as [->|[->|[->|[]]]]; simpl.
    + exists (MemoryRange 100 120). split; [repeat constructor|].
      unfold contains_incl. simpl. lia.
    + exists (MemoryRange 200 220). split; [repeat constructor|].
      unfold contains_incl. simpl. lia.
    + exists (MemoryRange 100 120). split; [repeat constructor|].
      unfold contains_incl. simpl. lia.
Defined.
